(** * The event-driven state machine engine of [fsm.h]

    A shallow embedding of [state_machine::State], [StateImpl] and [FSM],
    and the properties of the transition / event coordination core.

    Conventions of the embedding.
    - [typeid(T).name()] is a [string]; a template parameter pack is a list
      of such strings.
    - A [State*] is the key under which the slot is stored in [FSM::states]
      (slots are heap objects owned by that map and never removed from it
      before the machine is destroyed); the null pointer is [None].
    - A [std::any] is the name of its contained type together with the
      contained value.
    - Dereferencing a null pointer is the fault [None] of the option monad.
    - Application code (the constructor of a state class and its optional
      [on_fsm_event] method) runs in the middle of engine calls and may call
      back into the engine; it is a parameter of the engine, given as state
      transformers.  Destructors of application classes are taken to be
      trivial, as those of the example program are.
    - The mutexes do not appear: the embedding is of one thread of
      execution, where [std::recursive_mutex] never blocks and [statmtx] is
      always released before it is taken again.
    - The destructor of [FSM] is not embedded; [eof], which only it sets,
      is kept as a member because [next_state] and [post_event] test it. *)

From Stdlib Require Import ZArith Lia.
From stdpp Require Import base option gmap strings list fin_maps.

Open Scope string_scope.

(** ** Data *)

Section Engine.

Context {V : Type}.

(** [std::any]: the type it holds and the value. *)
Record any := Any { any_type : string; any_val : V }.

(** The object behind [StateImpl::ta]: its address (fresh at every [new]) and
    the constructor arguments it was built from. *)
Record instance := Instance { inst_addr : nat; inst_args : list any }.

(** The members of [State] and [StateImpl<T, TParams...>]. *)
Record State := mkState {
  reuse     : bool;
  name      : string;
  nextstate : string;
  whitelist : gset string;
  blacklist : gset string;
  deferlist : gset string;
  evts      : gmap string any;
  ta        : option instance;
  param     : list any
}.

(** Calls of the slot methods, in the order they happen (a history kept for
    stating which side effects ran; the program has no such member). *)
Inductive call := Center (p : string) | Cleave (p : string) | Conevt (p : string).

(** The members of [FSM], followed by the allocation counter of the heap and
    the history of slot calls. *)
Record FSM := mkFSM {
  eof        : bool;
  waitsize   : Z;
  curstate   : option string;
  waitstates : list string;
  events     : gmap string string;
  states     : gmap string State;
  heap_next  : nat;
  log        : list call
}.

(** The application: the number of constructor parameters of the machine
    ([sizeof...(TStateParams)]), the constructor of each state class and,
    for the classes that have one, the [on_fsm_event] method. *)
Record App := mkApp {
  arity        : nat;
  ctor         : string -> list any -> FSM -> option FSM;
  on_fsm_event : string -> option (FSM -> option FSM)
}.

(** *** Field updates *)

Definition set_reuse (b : bool) (s : State) : State :=
  mkState b (name s) (nextstate s) (whitelist s) (blacklist s) (deferlist s)
          (evts s) (ta s) (param s).
Definition set_nextstate (n : string) (s : State) : State :=
  mkState (reuse s) (name s) n (whitelist s) (blacklist s) (deferlist s)
          (evts s) (ta s) (param s).
Definition set_whitelist (l : gset string) (s : State) : State :=
  mkState (reuse s) (name s) (nextstate s) l (blacklist s) (deferlist s)
          (evts s) (ta s) (param s).
Definition set_blacklist (l : gset string) (s : State) : State :=
  mkState (reuse s) (name s) (nextstate s) (whitelist s) l (deferlist s)
          (evts s) (ta s) (param s).
Definition set_deferlist (l : gset string) (s : State) : State :=
  mkState (reuse s) (name s) (nextstate s) (whitelist s) (blacklist s) l
          (evts s) (ta s) (param s).
Definition set_evts (m : gmap string any) (s : State) : State :=
  mkState (reuse s) (name s) (nextstate s) (whitelist s) (blacklist s)
          (deferlist s) m (ta s) (param s).
Definition set_ta (i : option instance) (s : State) : State :=
  mkState (reuse s) (name s) (nextstate s) (whitelist s) (blacklist s)
          (deferlist s) (evts s) i (param s).
Definition set_param (l : list any) (s : State) : State :=
  mkState (reuse s) (name s) (nextstate s) (whitelist s) (blacklist s)
          (deferlist s) (evts s) (ta s) l.

Definition set_waitsize (z : Z) (st : FSM) : FSM :=
  mkFSM (eof st) z (curstate st) (waitstates st) (events st) (states st)
        (heap_next st) (log st).
Definition set_curstate (c : option string) (st : FSM) : FSM :=
  mkFSM (eof st) (waitsize st) c (waitstates st) (events st) (states st)
        (heap_next st) (log st).
Definition set_waitstates (q : list string) (st : FSM) : FSM :=
  mkFSM (eof st) (waitsize st) (curstate st) q (events st) (states st)
        (heap_next st) (log st).
Definition set_events (m : gmap string string) (st : FSM) : FSM :=
  mkFSM (eof st) (waitsize st) (curstate st) (waitstates st) m (states st)
        (heap_next st) (log st).
Definition set_states (m : gmap string State) (st : FSM) : FSM :=
  mkFSM (eof st) (waitsize st) (curstate st) (waitstates st) (events st) m
        (heap_next st) (log st).
Definition set_heap_next (n : nat) (st : FSM) : FSM :=
  mkFSM (eof st) (waitsize st) (curstate st) (waitstates st) (events st)
        (states st) n (log st).
Definition logged (c : call) (st : FSM) : FSM :=
  mkFSM (eof st) (waitsize st) (curstate st) (waitstates st) (events st)
        (states st) (heap_next st) (log st ++ [c]).

(** [p->...] for a slot pointer [p]: apply [f] to the slot; a pointer to no
    slot is a fault. *)
Definition on_slot (p : string) (f : State -> State) (st : FSM) : option FSM :=
  s ← states st !! p; Some (set_states (<[p := f s]> (states st)) st).

(** [std::atomic<int>]: increments and decrements wrap around. *)
Definition wrap_int (z : Z) : Z := ((z + 2 ^ 31) mod 2 ^ 32 - 2 ^ 31)%Z.
Definition waitsize_incr (st : FSM) : FSM :=
  set_waitsize (wrap_int (waitsize st + 1)) st.
Definition waitsize_decr (st : FSM) : FSM :=
  set_waitsize (wrap_int (waitsize st - 1)) st.

(** ** [State] *)

(** [State::has_event]. *)
Definition has_event (s : State) : bool := negb (Nat.eqb (size (evts s)) 0).

(** [State::get_event<T>]: the value written to [evt] when the call returns
    [true], [None] when it returns [false]; and the slot afterwards.
    [std::any_cast<T>] throws, before the entry is erased, when the entry
    holds another type. *)
Definition get_event (T : string) (s : State) : option V * State :=
  match evts s !! T with
  | None => (None, s)
  | Some a =>
      if decide (any_type a = T)
      then (Some (any_val a), set_evts (delete T (evts s)) s)
      else (None, s)
  end.

(** [State::interrupt]. *)
Definition interrupt (evtname : string) (s : State) : Z :=
  if negb (Nat.eqb (size (whitelist s)) 0) && negb (bool_decide (evtname ∈ whitelist s))
  then 0%Z
  else if bool_decide (evtname ∈ blacklist s) then 0%Z
  else if bool_decide (evtname ∈ deferlist s) then (-1)%Z
  else 1%Z.

(** [State::add_event<E>]. *)
Definition add_event (E : string) (evt : V) (s : State) : State :=
  set_evts (<[E := Any E evt]> (evts s)) s.

(** [State::add_list<TList, T1, Tn...>]. *)
Definition add_list (tlist : gset string) (Ts : list string) : gset string :=
  foldl (fun acc T => acc ∪ {[T]}) tlist Ts.

Definition add_white_event (En : list string) (s : State) : State :=
  set_whitelist (add_list (whitelist s) En) s.
Definition add_black_event (En : list string) (s : State) : State :=
  set_blacklist (add_list (blacklist s) En) s.
Definition add_defer_event (En : list string) (s : State) : State :=
  set_deferlist (add_list (deferlist s) En) s.

(** ** [StateImpl<T, TParams...>]

    The methods of a slot run application code, which sees and changes the
    whole machine: they are transformers of [FSM] that take the pointer [p]
    to the slot.  The class [T] of the slot is the one whose name
    [regist_state] stored in its member [name]. *)

Section Coordinator.

Variable app : App.

(** [StateImpl::onevt]. *)
Definition onevt (p : string) (st0 : FSM) : option FSM :=
  let st := logged (Conevt p) st0 in
  s ← states st !! p;
  match ta s with
  | None => Some st
  | Some _ =>
      match on_fsm_event app (name s) with
      | Some handler => handler st
      | None => on_slot p (set_evts ∅) st
      end
  end.

(** [StateImpl::leave]. *)
Definition leave (p : string) (st0 : FSM) : option FSM :=
  let st := logged (Cleave p) st0 in
  on_slot p (fun s => let s1 := set_evts ∅ s in
                      if reuse s1 then s1 else set_ta None s1) st.

(** [ta = new T(args...)]: the object is allocated, the constructor runs
    (with [ta] still as it was), and then its address is stored. *)
Definition construct (p : string) (st : FSM) : option FSM :=
  s ← states st !! p;
  let addr := heap_next st in
  let args := param s in
  st1 ← ctor app (name s) args (set_heap_next (S addr) st);
  on_slot p (set_ta (Some (Instance addr args))) st1.

(** [StateImpl::enter]. *)
Definition enter (p : string) (st0 : FSM) : option FSM :=
  let st := logged (Center p) st0 in
  s ← states st !! p;
  st1 ← (if bool_decide (is_Some (ta s)) && negb (reuse s)
         then leave p st else Some st);
  s1 ← states st1 !! p;
  st2 ← (if negb (bool_decide (is_Some (ta s1))) || negb (reuse s1)
         then construct p st1 else Some st1);
  s2 ← states st2 !! p;
  if negb (Nat.eqb (size (evts s2)) 0) then onevt p st2 else Some st2.

(** [StateImpl::get]. *)
Definition get_instance (s : State) : option instance := ta s.

(** [StateImpl::set_params]. *)
Definition set_params (params : list any) (s : State) : State :=
  if negb (Nat.eqb (arity app) (length params)) then s
  else set_param params s.

(** ** [FSM<TStateParams...>] *)

(** [FSM::_exist<Tlist, T1, Tn...>]. *)
Fixpoint _exist {A} (tlist : gmap string A) (Ts : list string) : bool :=
  match Ts with
  | [] => true
  | T1 :: Tn =>
      if negb (bool_decide (is_Some (tlist !! T1))) then false
      else _exist tlist Tn
  end.

Definition exist_event (Tn : list string) (st : FSM) : bool :=
  _exist (events st) Tn.
Definition exist_state (Tn : list string) (st : FSM) : bool :=
  _exist (states st) Tn.

(** [FSM::get<T>]: the pointer to the slot of [T], or null. *)
Definition get (T : string) (st : FSM) : option string :=
  if negb (exist_state [T] st) then None else Some T.

(** [FSM::in_state<T>]. *)
Definition in_state (T : string) (st : FSM) : bool :=
  match curstate st with
  | Some c =>
      match states st !! c with
      | Some cs => bool_decide (name cs = T)
      | None => false
      end
  | None => false
  end.

(** [FSM::get_state<T>]. *)
Definition get_state (T : string) (st : FSM) : option instance :=
  if negb (exist_state [T] st) then None
  else s ← states st !! T; get_instance s.

(** [FSM::_bind_chain<T1, Tn...>]. *)
Fixpoint _bind_chain (Ts : list string) (prev : option string) (st : FSM)
  : option FSM :=
  match Ts with
  | [] => Some st
  | T1 :: Tn =>
      st1 ← (match prev with
             | Some p => on_slot p (set_nextstate T1) st
             | None => Some st
             end);
      match Tn with
      | [] => Some st1
      | _ :: _ => _bind_chain Tn (get T1 st1) st1
      end
  end.

(** [FSM::_bind_event<E1, En...>]. *)
Definition _bind_event (state_name : string) (En : list string) (st : FSM) : FSM :=
  set_events (foldl (fun m E => <[E := state_name]> m) (events st) En) st.

(** [FSM::_enter_state]. *)
Definition _enter_state (nm : string) (paramlist : list any)
    (oldstate0 : option string) (st0 : FSM) : option FSM :=
  let oldstate := match oldstate0 with Some _ => oldstate0 | None => curstate st0 end in
  let newstate := match states st0 !! nm with Some _ => Some nm | None => None end in
  let st := set_curstate newstate st0 in
  if decide (oldstate = newstate) then Some st
  else
    st1 ← (match oldstate with Some o => leave o st | None => Some st end);
    st2 ← (match newstate with
           | Some n =>
               if negb (Nat.eqb (length paramlist) 0)
               then on_slot n (set_params paramlist) st1 else Some st1
           | None => Some st1
           end);
    match newstate with Some n => enter n st2 | None => Some st2 end.

(** The slot that [regist_state] creates: [new StateImpl<T, ...>()] with
    [name] set. *)
Definition new_state (T : string) : State :=
  mkState false T "" ∅ ∅ ∅ ∅ None [].

(** [FSM::regist_state<T, Tn...>].  The early return also skips the
    registration of the remaining [Tn]. *)
Fixpoint regist_state (Ts : list string) (st : FSM) : FSM :=
  match Ts with
  | [] => st
  | T :: Tn =>
      match states st !! T with
      | Some _ => st
      | None => regist_state Tn (set_states (<[T := new_state T]> (states st)) st)
      end
  end.

(** [FSM::option_reuse<T, Tn...>]: [get<T>()] is dereferenced unchecked. *)
Fixpoint option_reuse (Ts : list string) (st : FSM) : option FSM :=
  match Ts with
  | [] => Some st
  | T :: Tn =>
      p ← get T st;
      st1 ← on_slot p (set_reuse true) st;
      option_reuse Tn st1
  end.

Definition regist_chain_state (Tn : list string) (st : FSM) : option FSM :=
  _bind_chain Tn None (regist_state Tn st).

Definition regist_trans_event (TState : string) (TEvent : list string) (st : FSM) : FSM :=
  _bind_event TState TEvent (regist_state [TState] st).

Definition regist_white_event (TState : string) (TEvent : list string) (st : FSM)
  : option FSM :=
  let st1 := regist_state [TState] st in
  p ← get TState st1; on_slot p (add_white_event TEvent) st1.

Definition regist_black_event (TState : string) (TEvent : list string) (st : FSM)
  : option FSM :=
  let st1 := regist_state [TState] st in
  p ← get TState st1; on_slot p (add_black_event TEvent) st1.

Definition regist_defer_event (TState : string) (TEvent : list string) (st : FSM)
  : option FSM :=
  let st1 := regist_state [TState] st in
  p ← get TState st1; on_slot p (add_defer_event TEvent) st1.

(** [FSM::enter_state<T>]. *)
Definition enter_state (T : string) (params : list any) (st : FSM) : option FSM :=
  _enter_state T params None st.

(** [FSM::next_state<T>]. *)
Definition next_state (T : string) (params : list any) (st : FSM) : option FSM :=
  if eof st || negb (bool_decide (is_Some (curstate st))) then Some st
  else
    c ← curstate st;
    cs ← states st !! c;
    if negb (bool_decide (name cs = T)) then Some st
    else
      let oldstate := Some c in
      let '(staname, st1) :=
        match waitstates st with
        | front :: rest => (front, set_waitstates rest st)
        | [] => (nextstate cs, st)
        end in
      st2 ← _enter_state staname params oldstate (waitsize_incr st1);
      Some (waitsize_decr st2).

(** [FSM::post_event<E>].  [states[staname]] of a name that is not
    registered would insert a null pointer and call [add_event] through
    it. *)
Definition post_event (E : string) (evt : V) (params : list any) (st : FSM)
  : option FSM :=
  if eof st then Some st
  else
    let exist := bool_decide (is_Some (events st !! E)) in
    if negb exist && negb (bool_decide (is_Some (curstate st))) then Some st
    else
      let staname := default "" (events st !! E) in
      let cur_is_target :=
        match curstate st with
        | Some c =>
            match states st !! c with
            | Some cs => bool_decide (name cs = staname)
            | None => false
            end
        | None => false
        end in
      if cur_is_target || negb exist then
        c ← curstate st;
        st1 ← on_slot c (add_event E evt) st;
        st2 ← onevt c (waitsize_incr st1);
        Some (waitsize_decr st2)
      else
        code ← (match curstate st with
                | Some c => cs ← states st !! c; Some (interrupt E cs)
                | None => Some 1%Z
                end);
        st1 ← (if negb (Z.eqb code 0)
               then on_slot staname (add_event E evt) st else Some st);
        let st2 := if Z.eqb code (-1)
                   then set_waitstates (waitstates st1 ++ [staname]) st1 else st1 in
        if Z.ltb code 1 then Some st2
        else
          st3 ← _enter_state staname params (curstate st2) (waitsize_incr st2);
          Some (waitsize_decr st3).

End Coordinator.

(** ** Vocabulary of the properties *)

(** The three verdicts of the interruption policy, and how [post_event]
    reads the code that [interrupt] returns: [0] drops the event, [-1]
    buffers it and queues its target, any other code ([1]) lets the
    transition happen. *)
Inductive verdict := Accept | Reject | Defer.

Definition verdict_of_code (code : Z) : verdict :=
  if Z.eqb code 0 then Reject else if Z.eqb code (-1) then Defer else Accept.

(** The policy as the design document words it (section 4.3), to be compared
    with [interrupt]. *)
Definition decide_spec (s : State) (e : string) : verdict :=
  if bool_decide (whitelist s ≠ ∅ ∧ e ∉ whitelist s) then Reject
  else if bool_decide (e ∈ blacklist s) then Reject
  else if bool_decide (e ∈ deferlist s) then Defer
  else Accept.

(** What [leave] makes of a slot. *)
Definition after_leave (s : State) : State :=
  set_ta (if reuse s then ta s else None) (set_evts ∅ s).

(** The slot that [_enter_state] leaves: the one passed by the caller, or
    the active one when the caller passed null. *)
Definition departing (old : option string) (st : FSM) : option string :=
  match old with Some _ => old | None => curstate st end.

(** The slots once [_enter_state] has stored the parameters of the call in
    the slot [d] of the destination. *)
Definition with_params (app : App) (ps : list any) (d : string)
    (m : gmap string State) : gmap string State :=
  if negb (Nat.eqb (length ps) 0)
  then match m !! d with Some ds => <[d := set_params app ps ds]> m | None => m end
  else m.

(** A machine as the registration functions and the coordinator keep it:
    every slot is stored under its own name, the active pointer and the
    routing table point to registered slots, and the counter is an [int]. *)
Record wf (st : FSM) : Prop := mkWf {
  wf_name   : ∀ p s, states st !! p = Some s → name s = p;
  wf_cur    : ∀ c, curstate st = Some c → is_Some (states st !! c);
  wf_events : ∀ E t, events st !! E = Some t → is_Some (states st !! t);
  wf_wait   : (- 2 ^ 31 ≤ waitsize st < 2 ^ 31)%Z
}.

(** [wf], as a test that can be run on a given machine. *)
Definition wf_check (st : FSM) : bool :=
  bool_decide (map_Forall (λ p s, name s = p) (states st))
  && match curstate st with
     | Some c => bool_decide (is_Some (states st !! c))
     | None => true
     end
  && bool_decide (map_Forall (λ (_ : string) t, is_Some (states st !! t)) (events st))
  && bool_decide (- 2 ^ 31 ≤ waitsize st < 2 ^ 31)%Z.

(** The slot behind a pointer that is known to be valid. *)
Definition slot_at (p : string) (st : FSM) : State :=
  default (mkState false "" "" ∅ ∅ ∅ ∅ None []) (states st !! p).

(** Application code that keeps a property of the machine. *)
Definition preserves (P : FSM → Prop) (f : FSM → option FSM) : Prop :=
  ∀ st st', P st → f st = Some st' → P st'.

Definition app_preserves (P : FSM → Prop) (app : App) : Prop :=
  (∀ T args, preserves P (ctor app T args)) ∧
  (∀ T h, on_fsm_event app T = Some h → preserves P h).

(** Application code that does not change the deferred-target queue (it
    posts no deferred event and makes no successful [next_state] call). *)
Definition app_keeps_queue (app : App) : Prop :=
  ∀ q, app_preserves (fun st => waitstates st = q) app.

(** The name that follows [p] in a chain [l], if [p] is in it and is not
    its last name. *)
Fixpoint successor (l : list string) (p : string) : option string :=
  match l with
  | [] => None
  | a :: r =>
      match r with
      | [] => None
      | b :: _ => if decide (a = p) then Some b else successor r p
      end
  end.

(** A class whose constructor makes no call into the engine. *)
Definition ctor_inert (app : App) (T : string) : Prop :=
  ∀ args st, ctor app T args st = Some st.

(** The machine once [new T(args...)] has built the instance of the slot
    [p], holding [s], by a constructor that did nothing else. *)
Definition constructed (p : string) (s : State) (st : FSM) : FSM :=
  set_states
    (<[p := set_ta (Some (Instance (heap_next st) (param s))) s]> (states st))
    (set_heap_next (S (heap_next st)) st).

(** What registration sets in a slot, as opposed to what transitions and
    posts write (the payloads, the instance and its parameters). *)
Definition config (s : State)
  : bool * string * string * gset string * gset string * gset string :=
  (reuse s, name s, nextstate s, whitelist s, blacklist s, deferlist s).

(** [st'] has the routes of [st], the same registered states, and the same
    configuration in each slot. *)
Definition same_config (st st' : FSM) : Prop :=
  events st' = events st ∧
  ∀ p, config <$> states st' !! p = config <$> states st !! p.

(** Application code that registers nothing (it only makes calls of
    [enter_state], [next_state], [post_event] and [get_event], say). *)
Definition app_keeps_config (app : App) : Prop :=
  ∀ st0, app_preserves (same_config st0) app.

(** Every slot of [st] is still a slot of [st']: slots are never removed. *)
Definition slots_kept (st st' : FSM) : Prop :=
  ∀ p, is_Some (states st !! p) → is_Some (states st' !! p).

(** A call that, on a well-formed machine, does not fault, returns a
    well-formed machine and removes no slot; and an application all of
    whose code is made of such calls. *)
Definition safe_call (f : FSM → option FSM) : Prop :=
  ∀ st, wf st → ∃ st', f st = Some st' ∧ wf st' ∧ slots_kept st st'.

Definition app_safe (app : App) : Prop :=
  (∀ T args, safe_call (ctor app T args)) ∧
  (∀ T h, on_fsm_event app T = Some h → safe_call h).

(** The machine before any registration. *)
Definition empty_fsm : FSM := mkFSM false 0 None [] ∅ ∅ 0 [].

(** An application whose classes have empty constructors and no
    [on_fsm_event]. *)
Definition inert_app (n : nat) : App :=
  mkApp n (fun _ _ st => Some st) (fun _ => None).

End Engine.

Arguments any V : clear implicits.
Arguments instance V : clear implicits.
Arguments State V : clear implicits.
Arguments FSM V : clear implicits.
Arguments App V : clear implicits.

(** ** Application code as scripts of engine calls

    The state classes of a program, each given by the engine calls that its
    constructor and its [on_fsm_event] make.  A call made from application
    code runs the engine again, which may run application code again: the
    nesting depth is bounded by [fuel], and running out of it is [None]. *)

Module Script.
Section Script.

Context {V : Type}.

Inductive stmt :=
| Next (T : string)            (* fsm.next_state(this, args...) *)
| Post (E : string) (evt : V)  (* fsm.post_event(evt, args...) *)
| Enter (T : string)           (* fsm.enter_state<T>(args...) *)
| Take (T E : string).         (* fsm.get(this)->get_event(evt) *)

Record class := mkClass {
  cls_ctor    : list stmt;
  cls_handler : option (list stmt)
}.

Definition exec (app : App V) (args : list (any V)) (c : stmt) (st : FSM V)
  : option (FSM V) :=
  match c with
  | Next T => next_state app T args st
  | Post E evt => post_event app E evt args st
  | Enter T => enter_state app T args st
  | Take T E => p ← get T st; on_slot p (fun s => (get_event E s).2) st
  end.

Fixpoint run (app : App V) (args : list (any V)) (cs : list stmt) (st : FSM V)
  : option (FSM V) :=
  match cs with
  | [] => Some st
  | c :: rest => st1 ← exec app args c st; run app args rest st1
  end.

(** The constructor arguments that a method of the live object of class [T]
    finds in its members. *)
Definition own_args (T : string) (st : FSM V) : list (any V) :=
  match states st !! T with
  | Some s => match ta s with Some i => inst_args i | None => param s end
  | None => []
  end.

Fixpoint app_of (prog : string → class) (n : nat) (fuel : nat) : App V :=
  match fuel with
  | O => mkApp n (fun _ _ _ => None)
               (fun T => (fun _ _ => None) <$> cls_handler (prog T))
  | S k =>
      mkApp n
        (fun T args st => run (app_of prog n k) args (cls_ctor (prog T)) st)
        (fun T => (fun body st => run (app_of prog n k) (own_args T st) body st)
                    <$> cls_handler (prog T))
  end.

(** Statements that call neither [next_state] nor [post_event], and classes
    made of such statements only. *)
Definition no_queue_call (c : stmt) : bool :=
  match c with
  | Enter _ | Take _ _ => true
  | Next _ | Post _ _ => false
  end.

Definition quiet (k : class) : bool :=
  forallb no_queue_call (cls_ctor k)
  && match cls_handler k with Some body => forallb no_queue_call body | None => true end.

End Script.
End Script.

(** ** The example program: a cleaning robot

    [ReadyState] advances from its constructor, [BuildMapState] posts a
    [CleanEvent] from its constructor, [CleanState] takes the event and
    advances from [on_fsm_event], [RechargeState] does nothing. *)

Module Robot.
Import Script.

(** The constructor argument of every state, [&ofs]. *)
Definition ofs : list (any Z) := [Any "ofstream*" 0%Z].

(** The four state classes; a [CleanEvent] is given by its [id]. *)
Definition prog (T : string) : class (V := Z) :=
  if decide (T = "ReadyState") then mkClass [Next "ReadyState"] None
  else if decide (T = "BuildMapState") then mkClass [Post "CleanEvent" 1%Z] None
  else if decide (T = "CleanState")
       then mkClass [] (Some [Take "CleanState" "CleanEvent"; Next "CleanState"])
  else mkClass [] None.

(** The program as an application of a machine with one constructor
    parameter; its calls nest less than eight deep. *)
Definition app : App Z := app_of prog 1 8.

(** The registrations of [main]. *)
Definition registered : option (FSM Z) :=
  st1 ← regist_chain_state ["ReadyState"; "BuildMapState"] empty_fsm;
  st2 ← regist_chain_state ["CleanState"; "RechargeState"] st1;
  regist_black_event "RechargeState" ["CleanEvent"]
    (regist_trans_event "CleanState" ["CleanEvent"] st2).

(** [fsm.enter_state<ReadyState>(&ofs)]. *)
Definition started : option (FSM Z) :=
  st ← registered; enter_state app "ReadyState" ofs st.

(** The same machine driven by hand, the classes being inert: stopped in
    [BuildMapState], which defers [CleanEvent]. *)
Definition building : option (FSM Z) :=
  st ← registered;
  st ← regist_defer_event "BuildMapState" ["CleanEvent"] st;
  st ← enter_state (inert_app 1) "ReadyState" ofs st;
  next_state (inert_app 1) "ReadyState" ofs st.

(** [main] when [in_state<RechargeState>()] has become true. *)
Definition recharging : FSM Z := default empty_fsm started.

(** The machine stopped in [BuildMapState], and the same after a
    [CleanEvent] was posted to it and deferred. *)
Definition build : FSM Z := default empty_fsm building.

Definition deferred : FSM Z :=
  default empty_fsm (post_event (inert_app 1) "CleanEvent" 7%Z ofs build).

(** The running program with [CleanState] made active by force, where
    [CleanEvent] is routed to the active state, whose class handles it. *)
Definition cleaning : FSM Z :=
  default empty_fsm (enter_state app "CleanState" ofs recharging).

(** The machine of [main] before [enter_state<ReadyState>], and the same
    stopped by hand in [BuildMapState], which has no list. *)
Definition idle : FSM Z := default empty_fsm registered.

Definition mapping : FSM Z :=
  default empty_fsm
    (st ← enter_state (inert_app 1) "ReadyState" ofs idle;
     next_state (inert_app 1) "ReadyState" ofs st).

(** Classes whose constructors do nothing, [CleanState] having an
    [on_fsm_event] that does nothing either. *)
Definition handled : App Z :=
  mkApp 1 (fun _ _ st => Some st)
        (fun T => if decide (T = "CleanState") then Some (fun st => Some st)
                  else None).

(** [cleaning] after a [CleanEvent] was posted. *)
Definition cleaned : FSM Z :=
  default empty_fsm (post_event app "CleanEvent" 9%Z ofs cleaning).

End Robot.

(** ** A machine with a single state [A], entered, and a policy slot *)

Module Tiny.

Definition registered : FSM Z := regist_state ["A"] empty_fsm.

Definition lone : FSM Z :=
  default empty_fsm (enter_state (inert_app 0) "A" [] registered).

(** [lone] after [next_state] was called in the name of [A], and [lone]
    after [enter_state] was called for a state [B] that is not registered. *)
Definition advanced : FSM Z :=
  default empty_fsm (next_state (inert_app 0) "A" [] lone).

Definition forced : FSM Z :=
  default empty_fsm (enter_state (inert_app 0) "B" [] lone).

(** The same with [option_reuse<A>()] called before [A] is entered, and a
    payload buffered on [A] afterwards. *)
Definition reused : FSM Z :=
  default empty_fsm
    (st ← option_reuse ["A"] registered;
     st ← enter_state (inert_app 0) "A" [] st;
     on_slot "A" (add_event "E" 3%Z) st).

(** A slot in which the entry of [E] holds a payload of type [F]. *)
Definition misused : State Z :=
  set_evts {["E" := Any "F" 5%Z]} (new_state "S").

(** A slot whose whitelist holds [E] and [F], whose blacklist holds [F] and
    whose deferlist holds [E]. *)
Definition guarded : State Z :=
  add_defer_event ["E"]
    (add_black_event ["F"] (add_white_event ["E"; "F"] (new_state "S"))).

End Tiny.

(** * Properties *)

Section Properties.

Context {V : Type}.

Open Scope list_scope.

Implicit Types (st : FSM V) (s : State V) (app : App V) (ps : list (any V)).

(** ** Records and counters *)

Lemma wrap_int_range z : (- 2 ^ 31 ≤ wrap_int z < 2 ^ 31)%Z.
Proof.
  unfold wrap_int.
  pose proof (Z.mod_pos_bound (z + 2 ^ 31) (2 ^ 32) ltac:(lia)). lia.
Qed.

Lemma wrap_int_id z : (- 2 ^ 31 ≤ z < 2 ^ 31)%Z → wrap_int z = z.
Proof. intros Hz. unfold wrap_int. rewrite Z.mod_small; lia. Qed.

Lemma wrap_int_incr_decr z :
  (- 2 ^ 31 ≤ z < 2 ^ 31)%Z → wrap_int (wrap_int (z + 1) - 1) = z.
Proof.
  intros Hz. unfold wrap_int.
  replace ((z + 1 + 2 ^ 31) mod 2 ^ 32 - 2 ^ 31 - 1 + 2 ^ 31)%Z
    with ((z + 1 + 2 ^ 31) mod 2 ^ 32 - 1)%Z by lia.
  rewrite Zminus_mod_idemp_l.
  replace (z + 1 + 2 ^ 31 - 1)%Z with (z + 2 ^ 31)%Z by lia.
  rewrite Z.mod_small; lia.
Qed.

Lemma waitsize_decr_incr st :
  (- 2 ^ 31 ≤ waitsize st < 2 ^ 31)%Z → waitsize_decr (waitsize_incr st) = st.
Proof.
  intros Hz. destruct st; unfold waitsize_decr, waitsize_incr, set_waitsize; simpl in *.
  f_equal. by apply wrap_int_incr_decr.
Qed.

Lemma set_curstate_id st : set_curstate (curstate st) st = st.
Proof. by destruct st. Qed.

Lemma set_waitstates_id st : set_waitstates (waitstates st) st = st.
Proof. by destruct st. Qed.

Lemma on_slot_Some p f st s :
  states st !! p = Some s →
  on_slot p f st = Some (set_states (<[p := f s]> (states st)) st).
Proof. intros Hs. unfold on_slot. by rewrite Hs. Qed.

Lemma on_slot_None p f st : states st !! p = None → on_slot p f st = None.
Proof. intros Hs. unfold on_slot. by rewrite Hs. Qed.

(** ** The interruption policy *)

Lemma gset_size_nonempty (X : gset string) :
  negb (Nat.eqb (size X) 0) = bool_decide (X ≠ ∅).
Proof.
  destruct (decide (X = ∅)) as [->|Hne].
  - rewrite size_empty. simpl. by rewrite bool_decide_eq_false_2; [|intros H; apply H].
  - rewrite bool_decide_eq_true_2 by done.
    destruct (size X) eqn:Hsz; [|done].
    apply size_empty_inv in Hsz. exfalso. apply Hne. by apply leibniz_equiv.
Qed.

(** C1. [interrupt] decides as the policy of section 4.3 says: a non-empty
    whitelist that lacks the event rejects it, else the blacklist rejects
    it, else the deferlist defers it, else it is accepted.  Being on the
    whitelist protects neither from the blacklist (the event is rejected)
    nor, the blacklist not holding it, from the deferlist (it is
    deferred). *)
Theorem C1_interrupt_precedence s (e : string) :
  verdict_of_code (interrupt e s) = decide_spec s e ∧
  (e ∈ whitelist s → e ∈ blacklist s →
     verdict_of_code (interrupt e s) = Reject) ∧
  (e ∈ whitelist s → e ∉ blacklist s → e ∈ deferlist s →
     verdict_of_code (interrupt e s) = Defer).
Proof.
  assert (Heq : verdict_of_code (interrupt e s) = decide_spec s e).
  { unfold interrupt, decide_spec. rewrite gset_size_nonempty.
    repeat case_bool_decide; simpl; try reflexivity; exfalso; tauto. }
  split; [exact Heq|]. rewrite Heq. unfold decide_spec. split.
  - intros Hw Hb.
    rewrite bool_decide_eq_false_2 by tauto.
    by rewrite bool_decide_eq_true_2.
  - intros Hw Hb Hd.
    rewrite bool_decide_eq_false_2 by tauto.
    rewrite bool_decide_eq_false_2 by done.
    by rewrite bool_decide_eq_true_2.
Qed.

(** ** Buffered payloads of a slot *)

Lemma get_event_add_event s (E : string) (P : V) :
  get_event E (add_event E P s) = (Some P, set_evts (delete E (evts s)) s).
Proof.
  unfold get_event, add_event. simpl. rewrite lookup_insert_eq. simpl.
  destruct (decide (E = E)) as [_|Hne]; [|done].
  by rewrite delete_insert_eq.
Qed.

Lemma get_event_absent s (E : string) :
  evts s !! E = None → get_event E s = (None, s).
Proof. intros H. unfold get_event. by rewrite H. Qed.

(** C7. A payload buffered with [add_event<E>] is returned by the next
    [get_event<E>], which removes the entry, so that a second [get_event<E>]
    finds nothing; an entry stored under the name of [E] that holds another
    type makes [get_event<E>] fail and stays where it is. *)
Theorem C7_get_event_round_trip s (E : string) (P : V) :
  let s1 := add_event E P s in
  let s2 := (get_event E s1).2 in
  (get_event E s1).1 = Some P ∧
  evts s2 = delete E (evts s) ∧
  evts s2 !! E = None ∧
  get_event E s2 = (None, s2) ∧
  (∀ a, evts s !! E = Some a → any_type a ≠ E →
        get_event E s = (None, s) ∧ evts (get_event E s).2 !! E = Some a).
Proof.
  simpl. rewrite get_event_add_event. simpl.
  split; [done|]. split; [done|].
  split; [apply lookup_delete_eq|].
  split; [apply get_event_absent; simpl; apply lookup_delete_eq|].
  intros a Ha Hty. unfold get_event. rewrite Ha.
  by destruct (decide (any_type a = E)).
Qed.

(** ** Leaving and entering a slot *)

Lemma leave_Some p st s :
  states st !! p = Some s →
  leave p st = Some (set_states (<[p := after_leave s]> (states st)) (logged (Cleave p) st)).
Proof.
  intros Hs. unfold leave. rewrite (on_slot_Some _ _ _ s) by done.
  unfold after_leave. simpl. by destruct (reuse s).
Qed.

Lemma enter_reused app p st s i :
  states st !! p = Some s → reuse s = true → ta s = Some i → evts s = ∅ →
  enter app p st = Some (logged (Center p) st).
Proof.
  intros Hs Hr Hi He. unfold enter. simpl.
  rewrite Hs. simpl. rewrite Hr, Hi. simpl.
  rewrite Hs. simpl. rewrite Hr, Hi. simpl.
  rewrite Hs. simpl. rewrite He. by rewrite map_size_empty.
Qed.

(** C8. [leave] always empties the buffered payloads of the slot, and
    destroys the instance exactly when [reuse] is not set.  With [reuse]
    set, leaving a slot and entering it again keeps the very instance it
    had: no constructor and no event handler runs, and the payloads
    buffered before the leave are gone. *)
Theorem C8_leave_clears_and_reuse_keeps app (p : string) st s :
  states st !! p = Some s →
  (∃ st1, leave p st = Some st1 ∧
          log st1 = log st ++ [Cleave p] ∧
          ∃ s1, states st1 = <[p := s1]> (states st) ∧
                evts s1 = ∅ ∧
                ta s1 = (if reuse s then ta s else None) ∧
                (ta s1 = None ↔ (reuse s = false ∨ ta s = None))) ∧
  (∀ i, reuse s = true → ta s = Some i →
        (st1 ← leave p st; enter app p st1) =
          Some (set_states (<[p := set_evts ∅ s]> (states st))
                  (logged (Center p) (logged (Cleave p) st)))).
Proof.
  intros Hs. split.
  - eexists. split; [by apply leave_Some|]. split; [done|].
    exists (after_leave s). split; [done|]. split; [done|]. split; [done|].
    unfold after_leave. simpl. destruct (reuse s), (ta s); intuition congruence.
  - intros i Hr Hi. rewrite (leave_Some _ _ s) by done. simpl.
    assert (Hl : after_leave s = set_evts ∅ s).
    { unfold after_leave. rewrite Hr. destruct s; simpl in *. by subst. }
    rewrite Hl.
    erewrite enter_reused; [done| | | |]; simpl.
    + apply lookup_insert_eq.
    + done.
    + done.
    + done.
Qed.

(** ** [_enter_state] *)

(** To a name that is not registered, from no state: nothing but the
    (unchanged) active pointer is written. *)
Lemma _enter_state_unregistered_idle app (T : string) ps old st :
  states st !! T = None → departing old st = None → curstate st = None →
  _enter_state app T ps old st = Some st.
Proof.
  intros HT Hold Hc. unfold _enter_state. fold (departing old st).
  rewrite HT, Hold. simpl.
  by rewrite <- Hc, set_curstate_id.
Qed.

(** To a name that is not registered, from a state: that state is left,
    and no state is active. *)
Lemma _enter_state_unregistered app (T : string) ps old st (c : string) cs :
  states st !! T = None → departing old st = Some c → states st !! c = Some cs →
  _enter_state app T ps old st =
    Some (set_states (<[c := after_leave cs]> (states st))
            (logged (Cleave c) (set_curstate None st))).
Proof.
  intros HT Hold Hc. unfold _enter_state. fold (departing old st).
  rewrite HT, Hold. simpl.
  by rewrite (leave_Some c _ cs).
Qed.

(** To the state that is being departed from: only the active pointer is
    written. *)
Lemma _enter_state_same app (T : string) ps old st :
  is_Some (states st !! T) → departing old st = Some T →
  _enter_state app T ps old st = Some (set_curstate (Some T) st).
Proof.
  intros [ds HT] Hold. unfold _enter_state. fold (departing old st).
  rewrite HT, Hold. simpl.
  by destruct (decide (Some T = Some T)).
Qed.

(** To another registered state: the departed state is left, the
    destination is made active, receives the parameters and is entered. *)
Lemma _enter_state_registered app (d : string) ps old st (c : string) cs :
  is_Some (states st !! d) → departing old st = Some c → c ≠ d →
  states st !! c = Some cs →
  _enter_state app d ps old st =
    enter app d
      (set_states (with_params app ps d (<[c := after_leave cs]> (states st)))
         (logged (Cleave c) (set_curstate (Some d) st))).
Proof.
  intros [ds Hd] Hold Hne Hc. unfold _enter_state. fold (departing old st).
  rewrite Hd, Hold. simpl.
  destruct (decide (Some c = Some d)) as [[= ?]|_]; [done|].
  rewrite (leave_Some c _ cs) by done. simpl.
  unfold with_params. rewrite lookup_insert_ne by done. rewrite Hd.
  destruct (negb (Nat.eqb (length ps) 0)); [|done].
  unfold on_slot. simpl. rewrite lookup_insert_ne by done. by rewrite Hd.
Qed.

(** From no state to a registered one: the destination is made active,
    receives the parameters and is entered. *)
Lemma _enter_state_from_idle app (d : string) ps old st :
  is_Some (states st !! d) → departing old st = None →
  _enter_state app d ps old st =
    enter app d
      (set_states (with_params app ps d (states st)) (set_curstate (Some d) st)).
Proof.
  intros [ds Hd] Hold. unfold _enter_state. fold (departing old st).
  rewrite Hd, Hold. simpl.
  unfold with_params. rewrite Hd.
  destruct (negb (Nat.eqb (length ps) 0)).
  - unfold on_slot. simpl. by rewrite Hd.
  - simpl. by destruct st.
Qed.

Lemma with_params_lookup_ne app ps (d p : string) (m : gmap string (State V)) :
  d ≠ p → with_params app ps d m !! p = m !! p.
Proof.
  intros Hne. unfold with_params.
  destruct (negb (Nat.eqb (length ps) 0)); [|done].
  destruct (m !! d) eqn:Hd; [|done].
  by rewrite lookup_insert_ne.
Qed.

(** ** [next_state] *)

(** A call whose caller is the active state hands the resolved destination
    to [_enter_state]: the front of the queue if there is one, else the
    chain successor. *)
Lemma next_state_matching app (T : string) ps st (c : string) cs :
  eof st = false → curstate st = Some c → states st !! c = Some cs →
  name cs = T →
  next_state app T ps st =
    waitsize_decr <$>
      _enter_state app
        (match waitstates st with x :: _ => x | [] => nextstate cs end) ps (Some c)
        (waitsize_incr (set_waitstates (tail (waitstates st)) st)).
Proof.
  intros He Hc Hs Hn. unfold next_state. rewrite He, Hc. simpl.
  rewrite Hs. simpl. rewrite bool_decide_eq_true_2 by done. simpl.
  destruct (waitstates st) as [|x q] eqn:Hq; simpl.
  - rewrite <- Hq, set_waitstates_id.
    by destruct (_enter_state _ _ _ _ _).
  - by destruct (_enter_state _ _ _ _ _).
Qed.

Lemma in_state_false_inv (T : string) st (c : string) cs :
  in_state T st = false → curstate st = Some c → states st !! c = Some cs →
  name cs ≠ T.
Proof.
  unfold in_state. intros H Hc Hs. rewrite Hc, Hs in H.
  by apply bool_decide_eq_false in H.
Qed.

Lemma next_state_stale app (T : string) ps st :
  wf st → in_state T st = false → next_state app T ps st = Some st.
Proof.
  intros Hwf Hin. unfold next_state.
  destruct (eof st); [done|]. simpl.
  destruct (curstate st) as [c|] eqn:Hc; [|done]. simpl.
  destruct (wf_cur st Hwf c Hc) as [cs Hs]. rewrite Hs. simpl.
  pose proof (in_state_false_inv T st c cs Hin Hc Hs) as Hne.
  by rewrite bool_decide_eq_false_2.
Qed.

(** C9. A [next_state] call made in the name of a state that is not the
    active one changes nothing at all: not the active state, not the queue
    of deferred targets, no slot, and no slot method runs. *)
Theorem C9_stale_next_state_ignored app (T : string) ps st :
  wf st → in_state T st = false → next_state app T ps st = Some st.
Proof. apply next_state_stale. Qed.

(** C2, as the program has it.  When the caller is the active state,
    [next_state] resolves the destination in this order: (a) the front of
    the queue of deferred targets, which is popped, whatever the chain
    successor is; (b) else the chain successor.  What happens then depends
    on the destination only: (c) if it is not a registered state, as when
    the active state has no chain successor, the active state is left all
    the same (its payloads are cleared and, unless [reuse] is set, its
    instance is destroyed) and the machine is left with no active state;
    (d) if it is another registered state, the active state is left, the
    destination becomes the active state, and it is entered. *)
Theorem C2_next_state_destination app (T : string) ps st (c : string) cs :
  eof st = false → curstate st = Some c → states st !! c = Some cs →
  name cs = T → (- 2 ^ 31 ≤ waitsize st < 2 ^ 31)%Z →
  (∀ x q, waitstates st = x :: q →
     next_state app T ps st =
       waitsize_decr <$>
         _enter_state app x ps (Some c) (waitsize_incr (set_waitstates q st))) ∧
  (waitstates st = [] →
     next_state app T ps st =
       waitsize_decr <$>
         _enter_state app (nextstate cs) ps (Some c) (waitsize_incr st)) ∧
  (waitstates st = [] → states st !! nextstate cs = None →
     next_state app T ps st =
       Some (set_states (<[c := after_leave cs]> (states st))
               (logged (Cleave c) (set_curstate None st)))) ∧
  (∀ d st1, states st1 !! c = Some cs → is_Some (states st1 !! d) → d ≠ c →
     ∃ st2, _enter_state app d ps (Some c) st1 = enter app d st2 ∧
            curstate st2 = Some d ∧
            log st2 = log st1 ++ [Cleave c] ∧
            states st2 !! c = Some (after_leave cs) ∧
            waitstates st2 = waitstates st1).
Proof.
  intros He Hc Hs Hn Hw.
  pose proof (next_state_matching app T ps st c cs He Hc Hs Hn) as Hnext.
  split; [|split; [|split]].
  - intros x q Hq. rewrite Hnext, Hq. done.
  - intros Hq. rewrite Hnext, Hq. simpl.
    by rewrite <- Hq, set_waitstates_id.
  - intros Hq Hd. rewrite Hnext, Hq. simpl.
    rewrite <- Hq, set_waitstates_id.
    rewrite (_enter_state_unregistered app _ ps (Some c) _ c cs) by done.
    simpl. f_equal.
    destruct st; unfold waitsize_decr, waitsize_incr, set_states, logged,
      set_curstate, set_waitsize; simpl in *.
    f_equal. by apply wrap_int_incr_decr.
  - intros d st1 Hs1 Hd Hne.
    eexists. split.
    + apply (_enter_state_registered app d ps (Some c) st1 c cs); done.
    + simpl. repeat split.
      rewrite with_params_lookup_ne by done. apply lookup_insert_eq.
Qed.

(** ** Identities that were never registered *)

Lemma in_state_unregistered (T : string) st :
  wf st → states st !! T = None → in_state T st = false.
Proof.
  intros Hwf HT. unfold in_state.
  destruct (curstate st) as [c|]; [|done].
  destruct (states st !! c) as [cs|] eqn:Hs; [|done].
  apply bool_decide_eq_false_2. intros Hn.
  rewrite (wf_name st Hwf c cs Hs) in Hn. congruence.
Qed.

(** C4, as the program has it.  On an identity that was never registered
    the queries answer "absent" and a [next_state] in its name does
    nothing.  A forced [enter_state] of it does nothing only when no state
    is active: an active state is left (its payloads are cleared and,
    unless [reuse] is set, its instance is destroyed) and the machine is
    left with no active state. *)
Theorem C4_unregistered_identity app (T : string) ps st :
  wf st → states st !! T = None →
  exist_state [T] st = false ∧ get T st = None ∧ get_state T st = None ∧
  in_state T st = false ∧
  next_state app T ps st = Some st ∧
  (curstate st = None → enter_state app T ps st = Some st) ∧
  (∀ c cs, curstate st = Some c → states st !! c = Some cs →
     enter_state app T ps st =
       Some (set_states (<[c := after_leave cs]> (states st))
               (logged (Cleave c) (set_curstate None st)))).
Proof.
  intros Hwf HT.
  assert (Hex : exist_state [T] st = false).
  { unfold exist_state. simpl. by rewrite HT. }
  split; [done|].
  split; [unfold get; by rewrite Hex|].
  split; [unfold get_state; by rewrite Hex|].
  split; [by apply in_state_unregistered|].
  split; [apply next_state_stale; [done|by apply in_state_unregistered]|].
  split.
  - intros Hc. by apply _enter_state_unregistered_idle.
  - intros c cs Hc Hs. by apply _enter_state_unregistered.
Qed.

(** ** [post_event] *)

Lemma verdict_Reject_inv z : verdict_of_code z = Reject → z = 0%Z.
Proof.
  unfold verdict_of_code. destruct (Z.eqb_spec z 0); [done|].
  by destruct (Z.eqb z (-1)).
Qed.

Lemma verdict_Defer_inv z : verdict_of_code z = Defer → z = (-1)%Z.
Proof.
  unfold verdict_of_code. destruct (Z.eqb_spec z 0); [done|].
  by destruct (Z.eqb_spec z (-1)).
Qed.

(** C5. An event that the policy rejects is dropped: [post_event] returns
    the machine exactly as it was, so the active state is the same, no slot
    has a new payload, and no slot method has run. *)
Theorem C5_rejected_event_dropped app (E : string) (v : V) ps st
    (tgt c : string) cs :
  events st !! E = Some tgt → curstate st = Some c → states st !! c = Some cs →
  name cs ≠ tgt → verdict_of_code (interrupt E cs) = Reject →
  post_event app E v ps st = Some st.
Proof.
  intros HE Hc Hs Hne Hv. apply verdict_Reject_inv in Hv.
  unfold post_event. destruct (eof st); [done|].
  rewrite HE, Hc. simpl. rewrite Hs. simpl.
  rewrite bool_decide_eq_false_2 by done. simpl.
  by rewrite Hv.
Qed.

(** C3. An event that the policy defers is buffered on the slot of the
    state it is routed to, which is not the active one, and that state is
    appended to the queue of deferred targets; nothing else changes: the
    active state is the same and no slot method has run.  Read member by
    member in the machine [st'] that [post_event] returns: the queue is the
    old queue followed by the target; the slot of the target is its old
    slot with the payload stored under the event, and only its payloads
    differ; every other slot, the active slot among them, is as it was; so
    are the active pointer, the history of slot calls, the routing table,
    the counters and [eof]. *)
Theorem C3_deferred_event_buffered_on_target app (E : string) (v : V) ps st
    (tgt c : string) cs :
  wf st → eof st = false →
  events st !! E = Some tgt → curstate st = Some c → states st !! c = Some cs →
  name cs ≠ tgt → verdict_of_code (interrupt E cs) = Defer →
  ∃ ts st',
    states st !! tgt = Some ts ∧
    post_event app E v ps st = Some st' ∧
    st' = set_waitstates (waitstates st ++ [tgt])
            (set_states (<[tgt := add_event E v ts]> (states st)) st) ∧
    evts (add_event E v ts) !! E = Some (Any E v) ∧
    states st' !! c = Some cs ∧
    curstate st' = Some c ∧ log st' = log st ∧
    waitstates st' = waitstates st ++ [tgt] ∧
    (∃ ts', states st' !! tgt = Some ts' ∧
            evts ts' !! E = Some (Any E v) ∧
            (∀ F, F ≠ E → evts ts' !! F = evts ts !! F) ∧
            ta ts' = ta ts ∧ param ts' = param ts ∧ config ts' = config ts) ∧
    tgt ≠ c ∧
    (∀ p, p ≠ tgt → states st' !! p = states st !! p) ∧
    events st' = events st ∧ eof st' = eof st ∧
    waitsize st' = waitsize st ∧ heap_next st' = heap_next st.
Proof.
  intros Hwf He HE Hc Hs Hne Hv. apply verdict_Defer_inv in Hv.
  destruct (wf_events st Hwf E tgt HE) as [ts Ht].
  assert (Hct : tgt ≠ c).
  { intros ->. apply Hne. by apply (wf_name st Hwf). }
  assert (Hpost : post_event app E v ps st =
                  Some (set_waitstates (waitstates st ++ [tgt])
                          (set_states (<[tgt := add_event E v ts]> (states st))
                             st))).
  { unfold post_event. rewrite He, HE, Hc. simpl. rewrite Hs. simpl.
    rewrite bool_decide_eq_false_2 by done. simpl.
    rewrite Hv. simpl. unfold on_slot. rewrite Ht. done. }
  exists ts. eexists. split; [done|]. split; [exact Hpost|].
  split; [reflexivity|].
  split; [simpl; apply lookup_insert_eq|].
  split; [simpl; by rewrite lookup_insert_ne|].
  split; [done|]. split; [done|].
  split; [done|].
  split.
  { exists (add_event E v ts). split; [simpl; apply lookup_insert_eq|].
    split; [simpl; apply lookup_insert_eq|].
    split; [|done].
    intros F HF. simpl. by rewrite lookup_insert_ne. }
  split; [done|].
  split; [intros p Hp; simpl; by rewrite lookup_insert_ne|].
  done.
Qed.

Lemma onevt_no_instance app (p : string) st s :
  states st !! p = Some s → ta s = None →
  onevt app p st = Some (logged (Conevt p) st).
Proof. intros Hs Ht. unfold onevt. simpl. rewrite Hs. simpl. by rewrite Ht. Qed.

Lemma onevt_no_handler app (p : string) st s :
  states st !! p = Some s → is_Some (ta s) → on_fsm_event app (name s) = None →
  onevt app p st =
    Some (set_states (<[p := set_evts ∅ s]> (states st)) (logged (Conevt p) st)).
Proof.
  intros Hs [i Ht] Hh. unfold onevt. simpl. rewrite Hs. simpl.
  rewrite Ht, Hh. unfold on_slot. simpl. by rewrite Hs.
Qed.

Lemma onevt_handler app (p : string) st s h :
  states st !! p = Some s → is_Some (ta s) → on_fsm_event app (name s) = Some h →
  onevt app p st = h (logged (Conevt p) st).
Proof.
  intros Hs [i Ht] Hh. unfold onevt. simpl. rewrite Hs. simpl.
  by rewrite Ht, Hh.
Qed.

(** An event routed to the active state, or routed nowhere, is buffered on
    the active slot, whose [onevt] is called. *)
Lemma post_event_to_active app (E : string) (v : V) ps st (c : string) cs :
  eof st = false → curstate st = Some c → states st !! c = Some cs →
  events st !! E = Some (name cs) ∨ events st !! E = None →
  post_event app E v ps st =
    waitsize_decr <$>
      onevt app c
        (waitsize_incr (set_states (<[c := add_event E v cs]> (states st)) st)).
Proof.
  intros He Hc Hs HE. unfold post_event. rewrite He, Hc. simpl. rewrite Hs.
  destruct HE as [HE | HE]; rewrite HE in *; simpl in *.
  - rewrite bool_decide_eq_true_2 by done. simpl.
    unfold on_slot. rewrite Hs. simpl.
    by destruct (onevt _ _ _).
  - rewrite orb_true_r. unfold on_slot. rewrite Hs. simpl.
    by destruct (onevt _ _ _).
Qed.

(** C6. An event whose target is the active state, or that has no target,
    is buffered on the active slot and that slot's [onevt] is called, and
    that is all [post_event] does: with no live instance the payload just
    stays buffered; with an instance whose class has no [on_fsm_event] the
    payloads of the slot are discarded; otherwise [on_fsm_event] runs on the
    machine with the payload buffered.  The active state is not changed and
    neither [enter] nor [leave] is called by [post_event]. *)
Theorem C6_post_to_active_state app (E : string) (v : V) ps st (c : string) cs :
  eof st = false → curstate st = Some c → states st !! c = Some cs →
  events st !! E = Some (name cs) ∨ events st !! E = None →
  (- 2 ^ 31 ≤ waitsize st < 2 ^ 31)%Z →
  let buffered := set_states (<[c := add_event E v cs]> (states st)) st in
  (ta cs = None →
     post_event app E v ps st = Some (logged (Conevt c) buffered)) ∧
  (is_Some (ta cs) → on_fsm_event app (name cs) = None →
     post_event app E v ps st =
       Some (logged (Conevt c)
               (set_states (<[c := set_evts ∅ cs]> (states st)) st))) ∧
  (∀ h, is_Some (ta cs) → on_fsm_event app (name cs) = Some h →
     post_event app E v ps st =
       waitsize_decr <$> h (waitsize_incr (logged (Conevt c) buffered))).
Proof.
  intros He Hc Hs HE Hw buffered.
  pose proof (post_event_to_active app E v ps st c cs He Hc Hs HE) as Hpost.
  fold buffered in Hpost.
  assert (Hb : states (waitsize_incr buffered) !! c = Some (add_event E v cs)).
  { simpl. apply lookup_insert_eq. }
  split; [|split].
  - intros Ht. rewrite Hpost.
    rewrite (onevt_no_instance app c _ _ Hb) by done. simpl. f_equal.
    destruct st; unfold buffered, waitsize_decr, waitsize_incr, set_states,
      logged, set_waitsize; simpl in *.
    f_equal. by apply wrap_int_incr_decr.
  - intros Ht Hh. rewrite Hpost.
    rewrite (onevt_no_handler app c _ _ Hb) by done. simpl. f_equal.
    rewrite insert_insert_eq.
    destruct st; unfold buffered, waitsize_decr, waitsize_incr, set_states,
      logged, set_waitsize; simpl in *.
    f_equal. by apply wrap_int_incr_decr.
  - intros h Ht Hh. rewrite Hpost.
    by rewrite (onevt_handler app c _ _ h Hb).
Qed.

(** ** The queue of deferred targets *)

Ltac bind_inv H :=
  let x := fresh "x" in
  let Hx := fresh "Hx" in
  apply bind_Some in H; destruct H as (x & Hx & H).

Lemma on_slot_waitstates (p : string) f st st' :
  on_slot p f st = Some st' → waitstates st' = waitstates st.
Proof. unfold on_slot. intros H. bind_inv H. by injection H as <-. Qed.

Lemma leave_waitstates (p : string) st st' :
  leave p st = Some st' → waitstates st' = waitstates st.
Proof. unfold leave. intros H. by apply on_slot_waitstates in H. Qed.

Lemma keeps_queue_ctor app (T : string) args st st' :
  app_keeps_queue app → ctor app T args st = Some st' →
  waitstates st' = waitstates st.
Proof. intros Hk H. by apply (proj1 (Hk (waitstates st)) T args st st'). Qed.

Lemma keeps_queue_handler app (T : string) h st st' :
  app_keeps_queue app → on_fsm_event app T = Some h → h st = Some st' →
  waitstates st' = waitstates st.
Proof. intros Hk Hh H. by apply (proj2 (Hk (waitstates st)) T h Hh st st'). Qed.

Lemma onevt_waitstates app (p : string) st st' :
  app_keeps_queue app → onevt app p st = Some st' →
  waitstates st' = waitstates st.
Proof.
  intros Hk. unfold onevt. intros H. bind_inv H.
  destruct (ta x).
  - destruct (on_fsm_event app (name x)) as [h|] eqn:Hh.
    + by apply (keeps_queue_handler app _ h _ _ Hk Hh) in H.
    + by apply on_slot_waitstates in H.
  - by injection H as <-.
Qed.

Lemma construct_waitstates app (p : string) st st' :
  app_keeps_queue app → construct app p st = Some st' →
  waitstates st' = waitstates st.
Proof.
  intros Hk. unfold construct. intros H. bind_inv H. bind_inv H.
  apply on_slot_waitstates in H. rewrite H.
  by apply (keeps_queue_ctor app _ _ _ _ Hk) in Hx0.
Qed.

Lemma enter_waitstates app (p : string) st st' :
  app_keeps_queue app → enter app p st = Some st' →
  waitstates st' = waitstates st.
Proof.
  intros Hk. unfold enter. intros H.
  bind_inv H. bind_inv H. bind_inv H. bind_inv H. bind_inv H.
  assert (H1 : waitstates x0 = waitstates st).
  { destruct (_ && _) in Hx0.
    - by apply leave_waitstates in Hx0.
    - by injection Hx0 as <-. }
  assert (H2 : waitstates x2 = waitstates x0).
  { destruct (_ || _) in Hx2.
    - by apply construct_waitstates in Hx2.
    - by injection Hx2 as <-. }
  assert (H3 : waitstates st' = waitstates x2).
  { destruct (negb _) in H.
    - by apply onevt_waitstates in H.
    - by injection H as <-. }
  congruence.
Qed.

Lemma _enter_state_waitstates app (T : string) ps old st st' :
  app_keeps_queue app → _enter_state app T ps old st = Some st' →
  waitstates st' = waitstates st.
Proof.
  intros Hk. unfold _enter_state. intros H.
  destruct (decide _) in H; [by injection H as <-|].
  bind_inv H. bind_inv H.
  assert (H1 : waitstates x = waitstates st).
  { destruct (match old with Some _ => old | None => curstate st end).
    - by apply leave_waitstates in Hx.
    - by injection Hx as <-. }
  destruct (states st !! T).
  - apply enter_waitstates in H; [|done].
    destruct (negb _) in Hx0.
    + apply on_slot_waitstates in Hx0. congruence.
    + injection Hx0 as <-. congruence.
  - injection H as <-. injection Hx0 as <-. done.
Qed.


Lemma _bind_chain_waitstates (Ts : list string) prev st st' :
  _bind_chain Ts prev st = Some st' → waitstates st' = waitstates st.
Proof.
  revert prev st. induction Ts as [|T1 Tn IH]; intros prev st H; simpl in H.
  - by injection H as <-.
  - bind_inv H.
    assert (H1 : waitstates x = waitstates st).
    { destruct prev.
      - by apply on_slot_waitstates in Hx.
      - by injection Hx as <-. }
    destruct Tn.
    + injection H as <-. done.
    + apply IH in H. congruence.
Qed.





(** ** Well-formed machines *)

Lemma wf_check_sound st : wf_check st = true → wf st.
Proof.
  unfold wf_check. intros H.
  apply andb_true_iff in H as [H H4]. apply andb_true_iff in H as [H H3].
  apply andb_true_iff in H as [H1 H2].
  apply bool_decide_eq_true in H1, H3, H4.
  split.
  - intros p s Hs. by apply (H1 p s).
  - intros c Hc. rewrite Hc in H2. by apply bool_decide_eq_true in H2.
  - intros E t HE. by apply (H3 E t).
  - done.
Qed.


(** [wf] is kept by every function of the engine, provided the application
    code that runs inside keeps it. *)

Lemma wf_logged c st : wf st → wf (logged c st).
Proof. intros [H1 H2 H3 H4]. by split. Qed.

Lemma wf_set_waitstates q st : wf st → wf (set_waitstates q st).
Proof. intros [H1 H2 H3 H4]. by split. Qed.

Lemma wf_set_heap_next n st : wf st → wf (set_heap_next n st).
Proof. intros [H1 H2 H3 H4]. by split. Qed.

Lemma wf_waitsize_incr st : wf st → wf (waitsize_incr st).
Proof. intros [H1 H2 H3 H4]. split; try done. apply wrap_int_range. Qed.

Lemma wf_waitsize_decr st : wf st → wf (waitsize_decr st).
Proof. intros [H1 H2 H3 H4]. split; try done. apply wrap_int_range. Qed.

Lemma wf_set_curstate (c : option string) st :
  (∀ p, c = Some p → is_Some (states st !! p)) → wf st → wf (set_curstate c st).
Proof. intros Hc [H1 H2 H3 H4]. by split. Qed.

Lemma wf_on_slot (p : string) f st st' :
  wf st → on_slot p f st = Some st' → (∀ s, name (f s) = name s) → wf st'.
Proof.
  intros [H1 H2 H3 H4] H Hf. unfold on_slot in H. bind_inv H.
  injection H as <-. split; simpl; try done.
  - intros q s'. rewrite lookup_insert. case_decide as Hq.
    + intros [= <-]. rewrite Hf. subst q. by apply H1.
    + apply H1.
  - intros c Hc. apply lookup_insert_is_Some'. right. by apply H2.
  - intros E t HE. apply lookup_insert_is_Some'. right. by apply (H3 E).
Qed.

Lemma wf_leave (p : string) st st' : wf st → leave p st = Some st' → wf st'.
Proof.
  intros Hwf H. unfold leave in H.
  apply (wf_on_slot _ _ _ _ (wf_logged _ _ Hwf) H).
  intros s. simpl. by destruct (reuse s).
Qed.

Lemma wf_onevt app (p : string) st st' :
  app_preserves wf app → wf st → onevt app p st = Some st' → wf st'.
Proof.
  intros [_ Hh] Hwf H. unfold onevt in H. bind_inv H.
  apply (wf_logged (Conevt p)) in Hwf.
  destruct (ta x).
  - destruct (on_fsm_event app (name x)) as [h|] eqn:Hhe.
    + by apply (Hh _ h Hhe _ st' Hwf).
    + by apply (wf_on_slot _ _ _ _ Hwf H).
  - by injection H as <-.
Qed.

Lemma wf_construct app (p : string) st st' :
  app_preserves wf app → wf st → construct app p st = Some st' → wf st'.
Proof.
  intros [Hc _] Hwf H. unfold construct in H. bind_inv H. bind_inv H.
  apply (wf_set_heap_next (S (heap_next st))) in Hwf.
  apply (Hc _ _ _ _ Hwf) in Hx0.
  by apply (wf_on_slot _ _ _ _ Hx0 H).
Qed.

Lemma wf_enter app (p : string) st st' :
  app_preserves wf app → wf st → enter app p st = Some st' → wf st'.
Proof.
  intros Happ Hwf H. unfold enter in H.
  bind_inv H. bind_inv H. bind_inv H. bind_inv H. bind_inv H.
  apply (wf_logged (Center p)) in Hwf.
  assert (H1 : wf x0).
  { destruct (_ && _) in Hx0.
    - by apply (wf_leave p _ _ Hwf).
    - by injection Hx0 as <-. }
  assert (H2 : wf x2).
  { destruct (_ || _) in Hx2.
    - by apply (wf_construct app p _ _ Happ H1).
    - by injection Hx2 as <-. }
  destruct (negb _) in H.
  - by apply (wf_onevt app p _ _ Happ H2).
  - by injection H as <-.
Qed.

Lemma set_params_name app ps s : name (set_params app ps s) = name s.
Proof. unfold set_params. by destruct (negb _). Qed.

Lemma wf__enter_state app (T : string) ps old st st' :
  app_preserves wf app → wf st → _enter_state app T ps old st = Some st' →
  wf st'.
Proof.
  intros Happ Hwf H. unfold _enter_state in H.
  assert (Hcur : wf (set_curstate
            (match states st !! T with Some _ => Some T | None => None end) st)).
  { apply wf_set_curstate; [|done]. intros p Hp.
    destruct (states st !! T) eqn:HT; [|done]. injection Hp as <-. by eexists. }
  destruct (decide _) in H; [by injection H as <-|].
  bind_inv H. bind_inv H.
  assert (H1 : wf x).
  { destruct (match old with Some _ => old | None => curstate st end).
    - exact (wf_leave _ _ _ Hcur Hx).
    - by injection Hx as <-. }
  destruct (states st !! T).
  - apply (wf_enter app T x0 st' Happ); [|done].
    destruct (negb _) in Hx0.
    + apply (wf_on_slot _ _ _ _ H1 Hx0 (set_params_name app ps)).
    + by injection Hx0 as <-.
  - injection H as <-. by injection Hx0 as <-.
Qed.

Lemma wf_next_state app (T : string) ps st st' :
  app_preserves wf app → wf st → next_state app T ps st = Some st' → wf st'.
Proof.
  intros Happ Hwf H. unfold next_state in H.
  destruct (_ || _) in H; [by injection H as <-|].
  bind_inv H. bind_inv H.
  destruct (negb _) in H; [by injection H as <-|].
  destruct (waitstates st) as [|y q]; bind_inv H; injection H as <-;
    apply wf_waitsize_decr;
    apply (wf__enter_state app _ _ _ _ _ Happ) in Hx1; try done;
    apply wf_waitsize_incr; [done|by apply wf_set_waitstates].
Qed.

Lemma add_event_name (E : string) (v : V) s : name (add_event E v s) = name s.
Proof. done. Qed.

Lemma wf_post_event app (E : string) (v : V) ps st st' :
  app_preserves wf app → wf st → post_event app E v ps st = Some st' → wf st'.
Proof.
  intros Happ Hwf H. unfold post_event in H.
  destruct (eof st); [by injection H as <-|].
  destruct (_ && _) in H; [by injection H as <-|].
  destruct (_ || _) in H.
  - bind_inv H. bind_inv H. bind_inv H. injection H as <-.
    apply wf_waitsize_decr.
    apply (wf_onevt app _ _ _ Happ) in Hx1; [done|].
    apply wf_waitsize_incr.
    apply (wf_on_slot _ _ _ _ Hwf Hx0 (add_event_name E v)).
  - bind_inv H. bind_inv H.
    assert (H1 : wf x0).
    { destruct (negb _) in Hx0.
      - apply (wf_on_slot _ _ _ _ Hwf Hx0 (add_event_name E v)).
      - by injection Hx0 as <-. }
    assert (H2 : wf (if Z.eqb x (-1)
                     then set_waitstates
                            (waitstates x0 ++ [default "" (events st !! E)]) x0
                     else x0)).
    { destruct (Z.eqb x (-1)); [by apply wf_set_waitstates|done]. }
    destruct (Z.ltb x 1); [by injection H as <-|].
    bind_inv H. injection H as <-. apply wf_waitsize_decr.
    apply (wf__enter_state app _ _ _ _ _ Happ) in Hx1; [done|].
    by apply wf_waitsize_incr.
Qed.

(** The registration functions establish [wf]. *)

Lemma wf_empty_fsm : wf (@empty_fsm V).
Proof.
  split; simpl.
  - intros p s H. by rewrite lookup_empty in H.
  - done.
  - intros E t H. by rewrite lookup_empty in H.
  - lia.
Qed.

Lemma wf_regist_state (Ts : list string) st : wf st → wf (regist_state Ts st).
Proof.
  revert st. induction Ts as [|T Tn IH]; intros st Hwf; simpl; [done|].
  destruct (states st !! T) eqn:HT; [done|]. apply IH.
  destruct Hwf as [H1 H2 H3 H4]. split; simpl; try done.
  - intros q s'. rewrite lookup_insert. case_decide as Hq.
    + by intros [= <-].
    + apply H1.
  - intros c Hc. apply lookup_insert_is_Some'. right. by apply H2.
  - intros E t HE. apply lookup_insert_is_Some'. right. by apply (H3 E).
Qed.

Lemma regist_state_registered (T : string) (Tn : list string) st :
  is_Some (states (regist_state (T :: Tn) st) !! T).
Proof.
  simpl. destruct (states st !! T) eqn:HT; [by rewrite HT|].
  assert (Hmono : ∀ Ts st1, is_Some (states st1 !! T) →
                            is_Some (states (regist_state Ts st1) !! T)).
  { induction Ts as [|T' Ts IH]; intros st1 H1; simpl; [done|].
    destruct (states st1 !! T') eqn:HT'; [done|]. apply IH. simpl.
    apply lookup_insert_is_Some'. by right. }
  apply Hmono. simpl. rewrite lookup_insert_eq. by eexists.
Qed.

Lemma wf__bind_chain (Ts : list string) prev st st' :
  wf st → _bind_chain Ts prev st = Some st' → wf st'.
Proof.
  revert prev st. induction Ts as [|T1 Tn IH]; intros prev st Hwf H; simpl in H.
  - by injection H as <-.
  - bind_inv H.
    assert (H1 : wf x).
    { destruct prev.
      - by apply (wf_on_slot _ _ _ _ Hwf Hx).
      - by injection Hx as <-. }
    destruct Tn.
    + by injection H as <-.
    + by apply (IH _ _ H1 H).
Qed.

Lemma wf_regist_chain_state (Tn : list string) st st' :
  wf st → regist_chain_state Tn st = Some st' → wf st'.
Proof.
  intros Hwf H. unfold regist_chain_state in H.
  by apply (wf__bind_chain _ _ _ _ (wf_regist_state Tn st Hwf) H).
Qed.

Lemma _bind_event_lookup (state_name : string) (En : list string)
    (m : gmap string string) (E t : string) :
  foldl (fun m E => <[E := state_name]> m) m En !! E = Some t →
  t = state_name ∨ m !! E = Some t.
Proof.
  revert m. induction En as [|E' En IH]; intros m H; simpl in H; [by right|].
  destruct (IH _ H) as [Ht|Ht]; [by left|].
  rewrite lookup_insert in Ht. case_decide.
  - left. by injection Ht as <-.
  - by right.
Qed.

Lemma wf_regist_trans_event (TState : string) (TEvent : list string) st :
  wf st → wf (regist_trans_event TState TEvent st).
Proof.
  intros Hwf. unfold regist_trans_event, _bind_event.
  pose proof (regist_state_registered TState [] st) as Hreg.
  destruct (wf_regist_state [TState] st Hwf) as [H1 H2 H3 H4].
  split; [exact H1|exact H2| |exact H4].
  intros E t HE. cbn [events states set_events] in *.
  destruct (_bind_event_lookup _ _ _ _ _ HE) as [->|Ht]; [done|].
  by apply (H3 E).
Qed.

Lemma wf_regist_list_event (TState : string) (f : State V → State V) st st' :
  (∀ s, name (f s) = name s) → wf st →
  (p ← get TState (regist_state [TState] st);
   on_slot p f (regist_state [TState] st)) = Some st' →
  wf st'.
Proof.
  intros Hf Hwf H. bind_inv H.
  by apply (wf_on_slot _ _ _ _ (wf_regist_state [TState] st Hwf) H).
Qed.

Lemma wf_option_reuse (Ts : list string) st st' :
  wf st → option_reuse Ts st = Some st' → wf st'.
Proof.
  revert st. induction Ts as [|T Tn IH]; intros st Hwf H; simpl in H.
  - by injection H as <-.
  - bind_inv H. bind_inv H.
    apply (IH x0); [|done].
    by apply (wf_on_slot _ _ _ _ Hwf Hx0).
Qed.

(** Application code made of engine calls keeps [wf], whatever the nesting
    depth, and keeps the queue when it makes no [next_state] and no
    [post_event] call. *)

Lemma wf_script_exec app args (c : Script.stmt) st st' :
  app_preserves wf app → wf st → Script.exec app args c st = Some st' → wf st'.
Proof.
  intros Happ Hwf H. destruct c as [T|E evt|T|T E]; simpl in H.
  - by apply (wf_next_state app T args st).
  - by apply (wf_post_event app E evt args st).
  - by apply (wf__enter_state app T args None st).
  - bind_inv H. apply (wf_on_slot _ _ _ _ Hwf H).
    intros s. unfold get_event. destruct (evts s !! E); [|done].
    by destruct (decide _).
Qed.

Lemma wf_script_run app args (cs : list Script.stmt) st st' :
  app_preserves wf app → wf st → Script.run app args cs st = Some st' → wf st'.
Proof.
  intros Happ. revert st. induction cs as [|c cs IH]; intros st Hwf H; simpl in H.
  - by injection H as <-.
  - bind_inv H. apply (IH x); [|done]. by apply (wf_script_exec app args c st).
Qed.

Lemma wf_app_of (prog : string → Script.class) (n fuel : nat) :
  app_preserves wf (Script.app_of (V := V) prog n fuel).
Proof.
  induction fuel as [|k IH]; split; simpl.
  - intros T args st st' _ H. done.
  - intros T h Hh st st' _ H. destruct (Script.cls_handler (prog T)); [|done].
    injection Hh as <-. done.
  - intros T args st st' Hwf H. by apply (wf_script_run _ _ _ _ _ IH Hwf H).
  - intros T h Hh st st' Hwf H.
    destruct (Script.cls_handler (prog T)) as [body|]; [|done].
    injection Hh as <-. by apply (wf_script_run _ _ _ _ _ IH Hwf H).
Qed.

Lemma script_run_waitstates app args (cs : list Script.stmt) st st' :
  app_keeps_queue app → forallb Script.no_queue_call cs = true →
  Script.run app args cs st = Some st' → waitstates st' = waitstates st.
Proof.
  intros Hk. revert st. induction cs as [|c cs IH]; intros st Hq H; simpl in *.
  - by injection H as <-.
  - apply andb_true_iff in Hq as [Hc Hq]. bind_inv H.
    rewrite (IH x Hq H).
    destruct c as [T|E evt|T|T E]; simpl in *; try done.
    + by apply (_enter_state_waitstates app T args None).
    + bind_inv Hx. by apply on_slot_waitstates in Hx.
Qed.

Lemma quiet_app_of_keeps_queue (prog : string → Script.class) (n fuel : nat) :
  (∀ T, Script.quiet (prog T) = true) →
  app_keeps_queue (Script.app_of (V := V) prog n fuel).
Proof.
  intros Hquiet. induction fuel as [|k IH]; intros q; split; simpl.
  - intros T args st st' _ H. done.
  - intros T h Hh st st' _ H. destruct (Script.cls_handler (prog T)); [|done].
    injection Hh as <-. done.
  - intros T args st st' Hq H.
    specialize (Hquiet T). apply andb_true_iff in Hquiet as [Hc _].
    by rewrite (script_run_waitstates _ _ _ _ _ IH Hc H).
  - intros T h Hh st st' Hq H.
    specialize (Hquiet T). apply andb_true_iff in Hquiet as [_ Hb].
    destruct (Script.cls_handler (prog T)) as [body|]; [|done].
    injection Hh as <-.
    by rewrite (script_run_waitstates _ _ _ _ _ IH Hb H).
Qed.

End Properties.

(** * Further properties of the slots, the registry and the coordinator *)

Section Coverage.

Context {V : Type}.

Open Scope list_scope.

Implicit Types (st : FSM V) (s : State V) (app : App V) (ps : list (any V)).

Ltac bind_inv H :=
  let x := fresh "x" in
  let Hx := fresh "Hx" in
  apply bind_Some in H; destruct H as (x & Hx & H).

(** ** Buffered payloads *)

Lemma get_event_other s (E F : string) (v : V) :
  E ≠ F →
  (get_event F (add_event E v s)).1 = (get_event F s).1 ∧
  evts (get_event F (add_event E v s)).2 !! E = Some (Any E v).
Proof.
  intros Hne. unfold get_event, add_event. simpl.
  rewrite lookup_insert_ne by done.
  destruct (evts s !! F) as [a|]; simpl.
  - destruct (decide (any_type a = F)); simpl.
    + split; [done|]. rewrite lookup_delete_ne by done. apply lookup_insert_eq.
    + split; [done|]. apply lookup_insert_eq.
  - split; [done|]. apply lookup_insert_eq.
Qed.

(** X1. A slot holds at most one payload per event type: a second
    [add_event<E>] replaces the payload of the first, and it is the second
    that [get_event<E>] returns.  Payloads of different event types do not
    interfere: [get_event<F>] gives what it would have given without the
    payload of [E], and leaves that payload in place. *)
Theorem X1_one_payload_per_event_type s (E F : string) (v1 v2 : V) :
  add_event E v2 (add_event E v1 s) = add_event E v2 s ∧
  (get_event E (add_event E v2 (add_event E v1 s))).1 = Some v2 ∧
  (E ≠ F →
     (get_event F (add_event E v1 s)).1 = (get_event F s).1 ∧
     evts (get_event F (add_event E v1 s)).2 !! E = Some (Any E v1)).
Proof.
  split; [|split].
  - unfold add_event. simpl. by rewrite insert_insert_eq.
  - by rewrite get_event_add_event.
  - apply get_event_other.
Qed.

Lemma has_event_false s : has_event s = false ↔ evts s = ∅.
Proof.
  unfold has_event. rewrite negb_false_iff, Nat.eqb_eq. apply map_size_empty_iff.
Qed.

(** X2. [has_event] answers [false] exactly when no payload is buffered, and
    then every [get_event] fails and changes nothing; it answers [true] after
    any [add_event], and [false] again once the only payload was taken. *)
Theorem X2_has_event_reflects_buffer s (E : string) (v : V) :
  (has_event s = false ↔ evts s = ∅) ∧
  (has_event s = false → ∀ T, get_event T s = (None, s)) ∧
  has_event (add_event E v s) = true ∧
  (has_event s = false → has_event (get_event E (add_event E v s)).2 = false).
Proof.
  split; [apply has_event_false|]. split; [|split].
  - intros H T. apply has_event_false in H. apply get_event_absent.
    rewrite H. apply lookup_empty.
  - destruct (has_event (add_event E v s)) eqn:H; [done|].
    apply has_event_false in H. simpl in H.
    by apply insert_non_empty in H.
  - intros H. apply has_event_false in H. rewrite get_event_add_event. simpl.
    apply has_event_false. simpl. rewrite H. apply delete_empty.
Qed.

(** ** Registration *)

Lemma elem_of_add_list (tlist : gset string) (Ts : list string) (e : string) :
  e ∈ add_list tlist Ts ↔ e ∈ tlist ∨ e ∈ Ts.
Proof.
  unfold add_list. revert tlist.
  induction Ts as [|T Tn IH]; intros tlist; simpl.
  - rewrite elem_of_nil. tauto.
  - rewrite IH, elem_of_union, elem_of_singleton, elem_of_cons. tauto.
Qed.

Lemma regist_state_lookup_kept (Ts : list string) st (p : string) s :
  states st !! p = Some s → states (regist_state Ts st) !! p = Some s.
Proof.
  revert st. induction Ts as [|T Tn IH]; intros st Hp; simpl; [done|].
  destruct (states st !! T) eqn:HT; [done|].
  apply IH. simpl. rewrite lookup_insert_ne; [done|]. congruence.
Qed.

Lemma regist_state_frame (Ts : list string) st :
  set_states (states st) (regist_state Ts st) = st.
Proof.
  revert st. induction Ts as [|T Tn IH]; intros st; simpl; [by destruct st|].
  destruct (states st !! T); [by destruct st|].
  specialize (IH (set_states (<[T:=new_state T]> (states st)) st)).
  destruct (regist_state Tn _), st. simpl in *. by injection IH as -> -> -> -> -> -> ->.
Qed.

Lemma regist_state_one (T : string) st :
  ∃ s, states (regist_state [T] st) !! T = Some s ∧
       (states st !! T = None → s = new_state T) ∧
       (∀ s0, states st !! T = Some s0 → s = s0) ∧
       (∀ p, p ≠ T → states (regist_state [T] st) !! p = states st !! p).
Proof.
  simpl. destruct (states st !! T) as [s0|] eqn:HT.
  - exists s0. split; [done|]. split; [done|]. split; [by intros ? [= <-]|done].
  - exists (new_state T). simpl. split; [apply lookup_insert_eq|].
    split; [done|]. split; [done|].
    intros p Hp. by rewrite lookup_insert_ne.
Qed.

Lemma get_registered (T : string) st :
  is_Some (states st !! T) → get T st = Some T.
Proof.
  intros [s Hs]. unfold get, exist_state. simpl. by rewrite Hs.
Qed.

Lemma get_unregistered (T : string) st : states st !! T = None → get T st = None.
Proof. intros Hs. unfold get, exist_state. simpl. by rewrite Hs. Qed.

(** The three list registrations are one function up to the list they
    extend. *)
Lemma regist_list_event (T : string) (f : State V → State V) st :
  ∃ s, states (regist_state [T] st) !! T = Some s ∧
       (p ← get T (regist_state [T] st); on_slot p f (regist_state [T] st)) =
         Some (set_states (<[T := f s]> (states (regist_state [T] st)))
                 (regist_state [T] st)).
Proof.
  destruct (regist_state_one T st) as (s & Hs & _).
  exists s. split; [done|].
  rewrite get_registered by eauto. cbn -[regist_state].
  unfold on_slot. by rewrite Hs.
Qed.

(** X3. [regist_white_event], [regist_black_event] and [regist_defer_event]
    never fault: they register the state if it is not registered yet, add
    the events to the list of its slot, and change nothing else, neither in
    that slot nor in the machine. *)
Theorem X3_list_registration_effect (T : string) (En : list string) st :
  ∃ s0,
    states (regist_state [T] st) !! T = Some s0 ∧
    (states st !! T = None → s0 = new_state T) ∧
    (∀ s, states st !! T = Some s → s0 = s) ∧
    (∃ st', regist_white_event T En st = Some st' ∧
            states st' = <[T := set_whitelist (add_list (whitelist s0) En) s0]>
                           (states (regist_state [T] st)) ∧
            set_states (states st) st' = st ∧
            (∀ e, e ∈ add_list (whitelist s0) En ↔ e ∈ whitelist s0 ∨ e ∈ En)) ∧
    (∃ st', regist_black_event T En st = Some st' ∧
            states st' = <[T := set_blacklist (add_list (blacklist s0) En) s0]>
                           (states (regist_state [T] st)) ∧
            set_states (states st) st' = st ∧
            (∀ e, e ∈ add_list (blacklist s0) En ↔ e ∈ blacklist s0 ∨ e ∈ En)) ∧
    (∃ st', regist_defer_event T En st = Some st' ∧
            states st' = <[T := set_deferlist (add_list (deferlist s0) En) s0]>
                           (states (regist_state [T] st)) ∧
            set_states (states st) st' = st ∧
            (∀ e, e ∈ add_list (deferlist s0) En ↔ e ∈ deferlist s0 ∨ e ∈ En)).
Proof.
  destruct (regist_state_one T st) as (s0 & Hs0 & Hnew & Hold & _).
  exists s0. split; [done|]. split; [done|]. split; [done|].
  pose proof (regist_state_frame [T] st) as Hframe.
  split; [|split].
  - destruct (regist_list_event T (add_white_event En) st) as (s & Hs & Hr).
    rewrite Hs0 in Hs. injection Hs as <-.
    eexists. split; [exact Hr|]. split; [done|]. split.
    + simpl. exact Hframe.
    + intros e. apply elem_of_add_list.
  - destruct (regist_list_event T (add_black_event En) st) as (s & Hs & Hr).
    rewrite Hs0 in Hs. injection Hs as <-.
    eexists. split; [exact Hr|]. split; [done|]. split.
    + simpl. exact Hframe.
    + intros e. apply elem_of_add_list.
  - destruct (regist_list_event T (add_defer_event En) st) as (s & Hs & Hr).
    rewrite Hs0 in Hs. injection Hs as <-.
    eexists. split; [exact Hr|]. split; [done|]. split.
    + simpl. exact Hframe.
    + intros e. apply elem_of_add_list.
Qed.

Lemma interrupt_blacklisted s (e : string) : e ∈ blacklist s → interrupt e s = 0%Z.
Proof.
  intros H. unfold interrupt. destruct (_ && _); [done|].
  by rewrite bool_decide_eq_true_2.
Qed.

Lemma interrupt_not_whitelisted s (e : string) :
  whitelist s ≠ ∅ → e ∉ whitelist s → interrupt e s = 0%Z.
Proof.
  intros Hne H. unfold interrupt. rewrite gset_size_nonempty.
  rewrite bool_decide_eq_true_2 by done.
  by rewrite bool_decide_eq_false_2.
Qed.

Lemma interrupt_deferlisted s (e : string) :
  e ∈ deferlist s → interrupt e s ≠ 1%Z.
Proof.
  intros H. unfold interrupt. destruct (_ && _); [done|].
  destruct (bool_decide (e ∈ blacklist s)); [done|].
  by rewrite bool_decide_eq_true_2.
Qed.

Lemma interrupt_codes s (e : string) :
  interrupt e s = 0%Z ∨ interrupt e s = (-1)%Z ∨ interrupt e s = 1%Z.
Proof.
  unfold interrupt. destruct (_ && _); [by left|].
  destruct (bool_decide (e ∈ blacklist s)); [by left|].
  destruct (bool_decide (e ∈ deferlist s)); [right; by left|right; by right].
Qed.

(** X4. What the registered lists do to the verdicts of the state: an event
    given to [regist_black_event] is rejected from then on, whatever the
    other lists hold; once [regist_white_event] was called with some events,
    every event that is neither among them nor on the whitelist already is
    rejected; an event given to [regist_defer_event] is never accepted (it
    is deferred or rejected). *)
Theorem X4_registered_lists_decide (T : string) (En : list string) st :
  (∀ st' s' E, regist_black_event T En st = Some st' →
     states st' !! T = Some s' → E ∈ En →
     verdict_of_code (interrupt E s') = Reject) ∧
  (∀ st' s' e, regist_white_event T En st = Some st' →
     states st' !! T = Some s' → En ≠ [] → e ∉ En →
     (∀ s, states st !! T = Some s → e ∉ whitelist s) →
     verdict_of_code (interrupt e s') = Reject) ∧
  (∀ st' s' E, regist_defer_event T En st = Some st' →
     states st' !! T = Some s' → E ∈ En →
     verdict_of_code (interrupt E s') ≠ Accept).
Proof.
  destruct (regist_state_one T st) as (s0 & Hs0 & Hnew & Hold & _).
  split; [|split].
  - intros st' s' E Hr Hs' HE.
    destruct (regist_list_event T (add_black_event En) st) as (s & Hs & Hr').
    unfold regist_black_event in Hr. rewrite Hr' in Hr. injection Hr as <-.
    simpl in Hs'. rewrite lookup_insert_eq in Hs'. injection Hs' as <-.
    rewrite interrupt_blacklisted; [done|].
    simpl. apply elem_of_add_list. by right.
  - intros st' s' e Hr Hs' Hne He Hw.
    destruct (regist_list_event T (add_white_event En) st) as (s & Hs & Hr').
    unfold regist_white_event in Hr. rewrite Hr' in Hr. injection Hr as <-.
    simpl in Hs'. rewrite lookup_insert_eq in Hs'. injection Hs' as <-.
    rewrite Hs0 in Hs. injection Hs as <-.
    rewrite interrupt_not_whitelisted; [done| |].
    + simpl. destruct En as [|E1 En']; [done|].
      intros Hempty.
      assert (HE1 : E1 ∈ add_list (whitelist s0) (E1 :: En')).
      { apply elem_of_add_list. right. apply elem_of_cons. by left. }
      rewrite Hempty in HE1. by apply not_elem_of_empty in HE1.
    + simpl. rewrite elem_of_add_list. intros [Hin|Hin]; [|done].
      destruct (states st !! T) as [s1|] eqn:HT.
      * rewrite (Hold s1 eq_refl) in Hin. by apply (Hw s1).
      * rewrite (Hnew eq_refl) in Hin. simpl in Hin.
        by apply not_elem_of_empty in Hin.
  - intros st' s' E Hr Hs' HE.
    destruct (regist_list_event T (add_defer_event En) st) as (s & Hs & Hr').
    unfold regist_defer_event in Hr. rewrite Hr' in Hr. injection Hr as <-.
    simpl in Hs'. rewrite lookup_insert_eq in Hs'. injection Hs' as <-.
    assert (Hd : interrupt E (add_defer_event En s) ≠ 1%Z).
    { apply interrupt_deferlisted. simpl. apply elem_of_add_list. by right. }
    destruct (interrupt_codes (add_defer_event En s) E) as [H|[H|H]];
      rewrite H in *; done.
Qed.

Lemma regist_state_fresh (Ts : list string) st :
  NoDup Ts → (∀ T, T ∈ Ts → states st !! T = None) →
  ∀ T, T ∈ Ts → states (regist_state Ts st) !! T = Some (new_state T).
Proof.
  revert st. induction Ts as [|T Tn IH]; intros st Hnd Hnew T' HT'.
  - by apply elem_of_nil in HT'.
  - apply NoDup_cons in Hnd as [HT Hnd]. simpl.
    rewrite (Hnew T) by (apply elem_of_cons; by left).
    apply elem_of_cons in HT' as [->|HT'].
    + apply regist_state_lookup_kept. simpl. apply lookup_insert_eq.
    + apply IH; [done| |done].
      intros T2 HT2. simpl. rewrite lookup_insert_ne.
      * apply Hnew. apply elem_of_cons. by right.
      * intros ->. done.
Qed.

(** X5. [regist_state] never touches a slot that exists: registering again
    changes nothing (so the lists, the reuse flag and the chain link set
    before survive), and registering the same names twice is registering
    them once.  Names that are all new, and distinct, get a fresh slot each.
    The first name that is already registered ends the call: the names after
    it are not registered. *)
Theorem X5_regist_state_idempotent (Ts : list string) st :
  (∀ p s, states st !! p = Some s → states (regist_state Ts st) !! p = Some s) ∧
  regist_state Ts (regist_state Ts st) = regist_state Ts st ∧
  set_states (states st) (regist_state Ts st) = st ∧
  (NoDup Ts → (∀ T, T ∈ Ts → states st !! T = None) →
     ∀ T, T ∈ Ts → states (regist_state Ts st) !! T = Some (new_state T)) ∧
  (∀ T Tn, Ts = T :: Tn → is_Some (states st !! T) → regist_state Ts st = st).
Proof.
  split; [intros p s; apply regist_state_lookup_kept|]. split; [|split; [|split]].
  - destruct Ts as [|T Tn]; [done|].
    destruct (regist_state_registered T Tn st) as [s Hs].
    remember (regist_state (T :: Tn) st) as st1. simpl. by rewrite Hs.
  - apply regist_state_frame.
  - apply regist_state_fresh.
  - intros T Tn -> [s Hs]. simpl. by rewrite Hs.
Qed.

(** ** Chains *)

Lemma successor_not_in (l : list string) (p : string) :
  p ∉ l → successor l p = None.
Proof.
  induction l as [|a r IH]; intros Hp; [done|]. simpl.
  destruct r as [|b r']; [done|].
  apply not_elem_of_cons in Hp as [Hne Hp].
  destruct (decide (a = p)) as [->|_]; [done|]. by apply IH.
Qed.

Lemma successor_index (l : list string) (i : nat) (a : string) :
  NoDup l → l !! i = Some a → successor l a = l !! S i.
Proof.
  revert i. induction l as [|x r IH]; intros i Hnd Hi; [done|].
  apply NoDup_cons in Hnd as [Hx Hnd].
  destruct i as [|i]; simpl in Hi.
  - injection Hi as ->. simpl. destruct r as [|b r']; [done|].
    by destruct (decide (a = a)).
  - simpl. destruct r as [|b r']; [done|].
    destruct (decide (x = a)) as [->|_].
    + exfalso. apply Hx. by apply list_elem_of_lookup_2 in Hi.
    + by apply IH.
Qed.

(** What [_bind_chain] does to a machine in which the names of the chain
    (and the slot [prev] it starts from) are registered and distinct: every
    slot of the chain gets the name after it as [nextstate]. *)
Lemma _bind_chain_links (Ts : list string) (prev : option string) st :
  NoDup (option_list prev ++ Ts) →
  (∀ T, T ∈ option_list prev ++ Ts → is_Some (states st !! T)) →
  ∃ st', _bind_chain Ts prev st = Some st' ∧
         set_states (states st) st' = st ∧
         ∀ p, states st' !! p =
              (fun s => match successor (option_list prev ++ Ts) p with
                        | Some n => set_nextstate n s
                        | None => s
                        end) <$> states st !! p.
Proof.
  revert prev st. induction Ts as [|T1 Tn IH]; intros prev st Hnd Hreg.
  - exists st. split; [done|]. split; [by destruct st|].
    intros p. rewrite app_nil_r.
    destruct prev; simpl; by destruct (states st !! p).
  - destruct prev as [q|].
    + destruct (Hreg q ltac:(apply elem_of_cons; by left)) as [sq Hq].
      simpl option_list in *. simpl app in *.
      apply NoDup_cons in Hnd as [HqT Hnd].
      simpl _bind_chain. rewrite (on_slot_Some q _ _ sq Hq). cbn [mbind option_bind].
      destruct Tn as [|T2 Tn'].
      * eexists. split; [done|]. split; [by destruct st|].
        intros p. simpl. rewrite lookup_insert.
        destruct (decide (q = p)) as [<-|Hne]; [by rewrite Hq|].
        by destruct (states st !! p).
      * assert (HT1 : is_Some (states st !! T1)).
        { apply Hreg. apply elem_of_cons. right. apply elem_of_cons. by left. }
        assert (HqT1 : q ≠ T1).
        { intros ->. apply HqT. apply elem_of_cons. by left. }
        rewrite get_registered
          by (simpl; by rewrite lookup_insert_ne).
        destruct (IH (Some T1)
                    (set_states (<[q:=set_nextstate T1 sq]> (states st)) st))
          as (st' & Hb & Hf & Hl).
        { done. }
        { intros T HT. simpl. apply lookup_insert_is_Some'. right.
          apply Hreg. apply elem_of_cons. by right. }
        exists st'. split; [exact Hb|]. split.
        { destruct st, st'. simpl in *. by injection Hf as -> -> -> -> -> -> ->. }
        intros p. rewrite Hl. simpl states. rewrite lookup_insert.
        change (successor (q :: T1 :: T2 :: Tn') p)
          with (if decide (q = p) then Some T1
                else successor (T1 :: T2 :: Tn') p).
        destruct (decide (q = p)) as [<-|Hne].
        -- simpl option_list. simpl app.
           rewrite (successor_not_in (T1 :: T2 :: Tn') q HqT).
           by rewrite Hq.
        -- done.
    + simpl option_list in *. simpl app in *. simpl _bind_chain.
      destruct Tn as [|T2 Tn'].
      * exists st. split; [done|]. split; [by destruct st|].
        intros p. simpl. by destruct (states st !! p).
      * rewrite get_registered
          by (apply Hreg; apply elem_of_cons; by left).
        apply (IH (Some T1) st); done.
Qed.

(** X6. [regist_chain_state] with names that are all new, and distinct,
    never faults: it gives each name a fresh slot whose [nextstate] is the
    name after it in the chain, the last one having none, and changes
    nothing else in the machine. *)
Theorem X6_regist_chain_state_links (Ts : list string) st :
  NoDup Ts → (∀ T, T ∈ Ts → states st !! T = None) →
  ∃ st', regist_chain_state Ts st = Some st' ∧
         (∀ i a, Ts !! i = Some a →
            states st' !! a =
              Some (set_nextstate (default "" (Ts !! S i)) (new_state a))) ∧
         (∀ p s, states st !! p = Some s → states st' !! p = Some s) ∧
         set_states (states st) st' = st.
Proof.
  intros Hnd Hnew. unfold regist_chain_state.
  pose proof (regist_state_fresh Ts st Hnd Hnew) as Hfresh.
  destruct (_bind_chain_links Ts None (regist_state Ts st)) as (st' & Hb & Hf & Hl).
  { done. }
  { intros T HT. rewrite (Hfresh T HT). by eexists. }
  exists st'. split; [exact Hb|]. split; [|split].
  - intros i a Hi. rewrite Hl. simpl option_list. simpl app.
    rewrite (Hfresh a) by (by apply list_elem_of_lookup_2 in Hi). simpl.
    rewrite (successor_index Ts i a Hnd Hi).
    by destruct (Ts !! S i).
  - intros p s Hp. rewrite Hl. simpl option_list. simpl app.
    rewrite (regist_state_lookup_kept Ts st p s Hp). simpl.
    rewrite successor_not_in; [done|].
    intros Hin. rewrite (Hnew p Hin) in Hp. done.
  - pose proof (regist_state_frame Ts st) as Hf1.
    destruct st, st', (regist_state Ts _). simpl in *.
    injection Hf as -> -> -> -> -> -> ->.
    by injection Hf1 as -> -> -> -> -> -> ->.
Qed.

Lemma next_state_to_nowhere app (T : string) ps st (c : string) cs :
  eof st = false → curstate st = Some c → states st !! c = Some cs →
  name cs = T → (- 2 ^ 31 ≤ waitsize st < 2 ^ 31)%Z →
  waitstates st = [] → states st !! nextstate cs = None →
  next_state app T ps st =
    Some (set_states (<[c := after_leave cs]> (states st))
            (logged (Cleave c) (set_curstate None st))).
Proof.
  intros He Hc Hs Hn Hw Hq Hd.
  rewrite (next_state_matching app T ps st c cs He Hc Hs Hn), Hq. simpl.
  rewrite <- Hq, set_waitstates_id.
  rewrite (_enter_state_unregistered app _ ps (Some c) _ c cs) by done.
  simpl. f_equal.
  destruct st; unfold waitsize_decr, waitsize_incr, set_states, logged,
    set_curstate, set_waitsize; simpl in *.
  f_equal. by apply wrap_int_incr_decr.
Qed.

(** X7. [regist_chain_state<A, B>] when [A] is registered already and [B]
    is not: the early return of [regist_state] leaves [B] unregistered, and
    [_bind_chain] still makes [B] the successor of [A].  A [next_state] of
    [A] then leaves [A] and leaves the machine without an active state. *)
Theorem X7_chain_from_registered_state (A B : string) st s :
  states st !! A = Some s → states st !! B = None →
  ∃ st', regist_chain_state [A; B] st = Some st' ∧
         st' = set_states (<[A := set_nextstate B s]> (states st)) st ∧
         states st' !! B = None ∧
         (∀ app ps, eof st = false → curstate st = Some A → name s = A →
            waitstates st = [] → (- 2 ^ 31 ≤ waitsize st < 2 ^ 31)%Z →
            next_state app A ps st' =
              Some (set_states
                      (<[A := after_leave (set_nextstate B s)]> (states st'))
                      (logged (Cleave A) (set_curstate None st')))).
Proof.
  intros HA HB.
  assert (Hne : A ≠ B) by congruence.
  eexists. split; [|split; [reflexivity|split]].
  - unfold regist_chain_state. simpl regist_state. rewrite HA.
    simpl _bind_chain. rewrite get_registered by eauto.
    cbn [mbind option_bind]. by rewrite (on_slot_Some A _ _ s HA).
  - simpl. by rewrite lookup_insert_ne.
  - intros app ps He Hc Hn Hq Hw.
    apply (next_state_to_nowhere app A ps _ A (set_nextstate B s));
      try done.
    + apply lookup_insert_eq.
    + simpl. by rewrite lookup_insert_ne.
Qed.

(** ** Routing and queries *)

Lemma _bind_event_lookup_in (state_name : string) (En : list string)
    (m : gmap string string) (E : string) :
  E ∈ En → foldl (fun m E => <[E := state_name]> m) m En !! E = Some state_name.
Proof.
  revert m. induction En as [|E' En IH]; intros m HE; simpl.
  - by apply elem_of_nil in HE.
  - destruct (decide (E ∈ En)) as [Hin|Hnin]; [by apply IH|].
    apply elem_of_cons in HE as [->|HE]; [|done].
    assert (Hkeep : ∀ m' : gmap string string, m' !! E' = Some state_name →
              foldl (fun m E => <[E := state_name]> m) m' En !! E' = Some state_name).
    { clear IH. induction En as [|E2 En IH2]; intros m' Hm'; simpl; [done|].
      apply IH2.
      - intros Hin. apply Hnin. apply elem_of_cons. by right.
      - rewrite lookup_insert. by case_decide. }
    apply Hkeep. apply lookup_insert_eq.
Qed.

Lemma _bind_event_lookup_notin (state_name : string) (En : list string)
    (m : gmap string string) (E : string) :
  E ∉ En → foldl (fun m E => <[E := state_name]> m) m En !! E = m !! E.
Proof.
  revert m. induction En as [|E' En IH]; intros m HE; simpl; [done|].
  apply not_elem_of_cons in HE as [Hne HE].
  rewrite IH by done. by rewrite lookup_insert_ne.
Qed.

(** X8. [regist_trans_event<T, En...>] registers [T] if need be and routes
    every event of [En] to [T], replacing the route the event had (the last
    registration wins); the routes of the other events, the existing slots
    and the rest of the machine stay as they are. *)
Theorem X8_regist_trans_event_routes (T : string) (En : list string) st :
  is_Some (states (regist_trans_event T En st) !! T) ∧
  (∀ E, E ∈ En → events (regist_trans_event T En st) !! E = Some T) ∧
  (∀ E, E ∉ En → events (regist_trans_event T En st) !! E = events st !! E) ∧
  (∀ p s, states st !! p = Some s →
          states (regist_trans_event T En st) !! p = Some s) ∧
  (∀ T2 E, E ∈ En →
     events (regist_trans_event T2 [E] (regist_trans_event T En st)) !! E
       = Some T2) ∧
  set_events (events st) (set_states (states st) (regist_trans_event T En st))
    = st.
Proof.
  pose proof (regist_state_frame [T] st) as Hframe.
  assert (Hev : events (regist_state [T] st) = events st).
  { destruct st, (regist_state [T] _). simpl in *.
    by injection Hframe as -> -> -> -> -> -> ->. }
  unfold regist_trans_event, _bind_event.
  split; [|split; [|split; [|split; [|split]]]].
  - apply (regist_state_registered T [] st).
  - intros E HE. cbn [events set_events]. by apply _bind_event_lookup_in.
  - intros E HE. cbn [events set_events].
    rewrite _bind_event_lookup_notin by done. by rewrite Hev.
  - intros p s Hp. cbn [states set_events].
    by apply regist_state_lookup_kept.
  - intros T2 E HE. cbn [events set_events].
    apply _bind_event_lookup_in. apply elem_of_cons. by left.
  - destruct st, (regist_state [T] _). simpl in *.
    by injection Hframe as -> -> -> -> -> -> ->.
Qed.

Lemma _exist_true {A} (tlist : gmap string A) (Ts : list string) :
  _exist tlist Ts = true ↔ ∀ T, T ∈ Ts → is_Some (tlist !! T).
Proof.
  induction Ts as [|T Tn IH]; simpl.
  - split; [|done]. intros _ T HT. by apply elem_of_nil in HT.
  - destruct (decide (is_Some (tlist !! T))) as [Hs|Hs].
    + rewrite bool_decide_eq_true_2 by done. simpl. rewrite IH. split.
      * intros H T' HT'. apply elem_of_cons in HT' as [->|HT']; [done|by apply H].
      * intros H T' HT'. apply H. apply elem_of_cons. by right.
    + rewrite bool_decide_eq_false_2 by done. simpl. split; [done|].
      intros H. exfalso. apply Hs. apply H. apply elem_of_cons. by left.
Qed.

(** X9. The queries of the registry: [exist_state] and [exist_event] hold
    exactly when every name asked for is registered or routed; [get] and
    [get_state] return null for a state that is not registered, and else
    the slot and the instance it holds (null before the state was entered);
    in a well-formed machine [in_state<T>] holds exactly when the active
    pointer is the slot of [T]. *)
Theorem X9_registry_queries (Ts : list string) (T : string) st :
  (exist_state Ts st = true ↔ ∀ T', T' ∈ Ts → is_Some (states st !! T')) ∧
  (exist_event Ts st = true ↔ ∀ E, E ∈ Ts → is_Some (events st !! E)) ∧
  (get T st = if bool_decide (is_Some (states st !! T)) then Some T else None) ∧
  (get_state T st = s ← states st !! T; ta s) ∧
  (wf st → (in_state T st = true ↔ curstate st = Some T)).
Proof.
  split; [apply _exist_true|]. split; [apply _exist_true|]. split; [|split].
  - destruct (states st !! T) as [s|] eqn:Hs.
    + rewrite get_registered by (rewrite Hs; eauto). done.
    + by rewrite get_unregistered.
  - unfold get_state, exist_state. simpl.
    by destruct (states st !! T) as [s|] eqn:Hs.
  - intros Hwf. unfold in_state.
    destruct (curstate st) as [c|] eqn:Hc; [|done].
    destruct (wf_cur st Hwf c Hc) as [cs Hs]. rewrite Hs.
    rewrite (bool_decide_ext _ (c = T)).
    + rewrite bool_decide_eq_true. split; [by intros ->|by intros [= ->]].
    + by rewrite (wf_name st Hwf c cs Hs).
Qed.

Lemma option_reuse_registered (Ts : list string) st :
  (∀ T, T ∈ Ts → is_Some (states st !! T)) →
  ∃ st', option_reuse Ts st = Some st' ∧
         set_states (states st) st' = st ∧
         ∀ p, states st' !! p =
              (fun s => if bool_decide (p ∈ Ts) then set_reuse true s else s)
                <$> states st !! p.
Proof.
  revert st. induction Ts as [|T Tn IH]; intros st Hreg.
  - exists st. split; [done|]. split; [by destruct st|].
    intros p. rewrite bool_decide_eq_false_2 by apply not_elem_of_nil.
    by destruct (states st !! p).
  - destruct (Hreg T ltac:(apply elem_of_cons; by left)) as [sT HT].
    simpl option_reuse. rewrite get_registered by eauto.
    cbn [mbind option_bind]. rewrite (on_slot_Some T _ _ sT HT).
    cbn [mbind option_bind].
    destruct (IH (set_states (<[T:=set_reuse true sT]> (states st)) st))
      as (st' & Hr & Hf & Hl).
    { intros T' HT'. simpl. apply lookup_insert_is_Some'. right.
      apply Hreg. apply elem_of_cons. by right. }
    exists st'. split; [exact Hr|]. split.
    { destruct st, st'. simpl in *. by injection Hf as -> -> -> -> -> -> ->. }
    intros p. rewrite Hl. simpl states. rewrite lookup_insert.
    destruct (decide (T = p)) as [<-|Hne].
    + rewrite HT. simpl. rewrite (bool_decide_eq_true_2 (T ∈ T :: Tn))
        by (apply elem_of_cons; by left).
      by destruct (bool_decide (T ∈ Tn)).
    + destruct (states st !! p) as [sp|]; [|done]. simpl.
      rewrite (bool_decide_ext (p ∈ T :: Tn) (p ∈ Tn)); [done|].
      rewrite elem_of_cons. split; [|by right]. intros [->|H]; done.
Qed.

Lemma option_reuse_Some_inv (Ts : list string) st st' :
  option_reuse Ts st = Some st' → ∀ T, T ∈ Ts → is_Some (states st !! T).
Proof.
  revert st. induction Ts as [|T Tn IH]; intros st H T' HT'.
  - by apply elem_of_nil in HT'.
  - simpl in H. bind_inv H. bind_inv H.
    unfold on_slot in Hx0. bind_inv Hx0. injection Hx0 as <-.
    unfold get in Hx. destruct (negb _) eqn:Hex in Hx; [done|].
    injection Hx as <-.
    apply elem_of_cons in HT' as [->|HT']; [by eexists|].
    specialize (IH _ H T' HT'). simpl in IH.
    apply lookup_insert_is_Some' in IH as [->|IH]; [by eexists|done].
Qed.

(** X10. [option_reuse<Tn...>] succeeds exactly when every state it names
    is registered, and faults (it writes through a null pointer) as soon as
    one is not.  When it succeeds it sets the reuse flag of the slots named
    and changes nothing else. *)
Theorem X10_option_reuse_needs_registered (Ts : list string) st :
  (is_Some (option_reuse Ts st) ↔ ∀ T, T ∈ Ts → is_Some (states st !! T)) ∧
  (∀ st', option_reuse Ts st = Some st' →
     set_states (states st) st' = st ∧
     ∀ p, states st' !! p =
          (fun s => if bool_decide (p ∈ Ts) then set_reuse true s else s)
            <$> states st !! p).
Proof.
  split.
  - split.
    + intros [st' H]. by apply (option_reuse_Some_inv Ts st st').
    + intros H. destruct (option_reuse_registered Ts st H) as (st' & Hr & _).
      by exists st'.
  - intros st' H.
    destruct (option_reuse_registered Ts st (option_reuse_Some_inv Ts st st' H))
      as (st2 & Hr & Hf & Hl).
    rewrite H in Hr. injection Hr as <-. done.
Qed.

(** ** Transitions *)

Lemma bind_Some_fmap {A B} (f : A → B) (m : option A) :
  (m ≫= fun x => Some (f x)) = f <$> m.
Proof. by destruct m. Qed.

(** X11. [enter_state<T>] when [T] is the active state already does
    nothing: the state is neither left nor entered again, no instance is
    built, and the parameters of the call are not even stored. *)
Theorem X11_enter_state_active_noop app (T : string) ps st :
  wf st → curstate st = Some T → enter_state app T ps st = Some st.
Proof.
  intros Hwf Hc. unfold enter_state.
  rewrite _enter_state_same.
  - by rewrite <- Hc, set_curstate_id.
  - by apply (wf_cur st Hwf).
  - done.
Qed.

Lemma verdict_Accept_inv s (e : string) :
  verdict_of_code (interrupt e s) = Accept → interrupt e s = 1%Z.
Proof.
  intros H. destruct (interrupt_codes s e) as [Hi|[Hi|Hi]]; rewrite Hi in *; done.
Qed.

Lemma with_params_lookup_eq app ps (d : string) (m : gmap string (State V)) ds :
  m !! d = Some ds →
  ∃ ds', with_params app ps d m !! d = Some ds' ∧
         evts ds' = evts ds ∧ ta ds' = ta ds ∧ reuse ds' = reuse ds ∧
         name ds' = name ds ∧ nextstate ds' = nextstate ds ∧
         param ds' = (if negb (Nat.eqb (length ps) 0)
                         && Nat.eqb (arity app) (length ps)
                      then ps else param ds).
Proof.
  intros Hd. unfold with_params. rewrite Hd.
  destruct (negb (Nat.eqb (length ps) 0)); simpl.
  - rewrite lookup_insert_eq. eexists. split; [done|].
    unfold set_params. by destruct (Nat.eqb (arity app) (length ps)).
  - exists ds. by rewrite Hd.
Qed.

(** An accepted event: the payload is buffered on the slot of the target,
    and [_enter_state] goes from the active state to the target. *)
Lemma post_event_accept app (E : string) (v : V) ps st (tgt c : string) cs ts :
  eof st = false → events st !! E = Some tgt → curstate st = Some c →
  states st !! c = Some cs → name cs ≠ tgt → c ≠ tgt →
  interrupt E cs = 1%Z → states st !! tgt = Some ts →
  post_event app E v ps st =
    waitsize_decr <$>
      enter app tgt
        (set_states
           (with_params app ps tgt
              (<[c := after_leave cs]>
                 (<[tgt := add_event E v ts]> (states st))))
           (logged (Cleave c) (set_curstate (Some tgt) (waitsize_incr st)))).
Proof.
  intros He HE Hc Hs Hne Hct Hv Ht.
  unfold post_event. rewrite He, HE, Hc. simpl. rewrite Hs. simpl.
  rewrite bool_decide_eq_false_2 by done. simpl.
  rewrite Hv. simpl. unfold on_slot at 1. rewrite Ht. simpl. rewrite Hc.
  rewrite (_enter_state_registered app tgt ps (Some c) _ c cs).
  - by destruct (enter _ _ _).
  - simpl. rewrite lookup_insert_eq. by eexists.
  - done.
  - done.
  - simpl. by rewrite lookup_insert_ne.
Qed.

(** X12. An event that the policy accepts interrupts the active state: the
    payload is buffered on the slot of the target, the active state is left
    (its payloads are cleared and, unless [reuse] is set, its instance is
    destroyed), the target becomes the active state, and only then the
    target is entered, with the payload in its slot and the queue of
    deferred targets as it was. *)
Theorem X12_accepted_event_interrupts app (E : string) (v : V) ps st
    (tgt c : string) cs :
  wf st → eof st = false →
  events st !! E = Some tgt → curstate st = Some c → states st !! c = Some cs →
  name cs ≠ tgt → verdict_of_code (interrupt E cs) = Accept →
  ∃ ts ts' st2,
    states st !! tgt = Some ts ∧
    post_event app E v ps st = waitsize_decr <$> enter app tgt st2 ∧
    curstate st2 = Some tgt ∧
    log st2 = log st ++ [Cleave c] ∧
    states st2 !! c = Some (after_leave cs) ∧
    states st2 !! tgt = Some ts' ∧
    evts ts' = <[E := Any E v]> (evts ts) ∧ ta ts' = ta ts ∧
    waitstates st2 = waitstates st ∧ heap_next st2 = heap_next st.
Proof.
  intros Hwf He HE Hc Hs Hne Hv. apply verdict_Accept_inv in Hv.
  destruct (wf_events st Hwf E tgt HE) as [ts Ht].
  assert (Hct : c ≠ tgt).
  { intros <-. apply Hne. by apply (wf_name st Hwf). }
  destruct (with_params_lookup_eq app ps tgt
              (<[c := after_leave cs]> (<[tgt := add_event E v ts]> (states st)))
              (add_event E v ts))
    as (ts' & Hts' & Hev & Hta & _).
  { rewrite lookup_insert_ne by done. apply lookup_insert_eq. }
  exists ts, ts'. eexists. split; [done|]. split.
  { by apply (post_event_accept app E v ps st tgt c cs ts). }
  simpl. split; [done|]. split; [done|]. split.
  { rewrite with_params_lookup_ne by done. apply lookup_insert_eq. }
  by rewrite Hts', Hev, Hta.
Qed.

(** X13. With no active state there is no policy to ask: an event that is
    routed nowhere is dropped, the machine being left exactly as it was,
    and a routed event is buffered on the slot of its target, which becomes
    the active state and is entered, no state being left. *)
Theorem X13_post_event_without_active_state app (E : string) (v : V) ps st :
  eof st = false → curstate st = None →
  (events st !! E = None → post_event app E v ps st = Some st) ∧
  (∀ tgt ts, events st !! E = Some tgt → states st !! tgt = Some ts →
     ∃ ts' st2,
       post_event app E v ps st = waitsize_decr <$> enter app tgt st2 ∧
       curstate st2 = Some tgt ∧ log st2 = log st ∧
       states st2 !! tgt = Some ts' ∧
       evts ts' = <[E := Any E v]> (evts ts) ∧ ta ts' = ta ts ∧
       waitstates st2 = waitstates st).
Proof.
  intros He Hc. split.
  - intros HE. unfold post_event. by rewrite He, HE, Hc.
  - intros tgt ts HE Ht.
    destruct (with_params_lookup_eq app ps tgt
                (<[tgt := add_event E v ts]> (states st)) (add_event E v ts))
      as (ts' & Hts' & Hev & Hta & _); [apply lookup_insert_eq|].
    exists ts'. eexists. split.
    + unfold post_event. rewrite He, HE, Hc. simpl.
      unfold on_slot at 1. rewrite Ht. simpl. rewrite Hc.
      rewrite (_enter_state_from_idle app tgt ps None).
      * apply bind_Some_fmap.
      * simpl. rewrite lookup_insert_eq. by eexists.
      * done.
    + simpl. by rewrite Hts', Hev, Hta.
Qed.

(** ** Entering a slot *)

Lemma construct_inert app (p : string) st s :
  states st !! p = Some s → ctor_inert app (name s) →
  construct app p st = Some (constructed p s st).
Proof.
  intros Hs Hc. unfold construct. rewrite Hs. simpl. rewrite Hc. simpl.
  unfold on_slot. simpl. by rewrite Hs.
Qed.

Lemma enter_fresh app (p : string) st s :
  states st !! p = Some s → ta s = None → ctor_inert app (name s) →
  enter app p st =
    if negb (Nat.eqb (size (evts s)) 0)
    then onevt app p (constructed p s (logged (Center p) st))
    else Some (constructed p s (logged (Center p) st)).
Proof.
  intros Hs Ht Hc. unfold enter. simpl. rewrite Hs. simpl. rewrite Ht. simpl.
  rewrite Hs. simpl. rewrite Ht. simpl.
  rewrite (construct_inert app p _ s) by done. simpl.
  by rewrite lookup_insert_eq.
Qed.

Lemma enter_stale app (p : string) st s i :
  states st !! p = Some s → ta s = Some i → reuse s = false →
  ctor_inert app (name s) →
  enter app p st =
    Some (constructed p (set_evts ∅ s)
            (set_states (states st)
               (logged (Cleave p) (logged (Center p) st)))).
Proof.
  intros Hs Ht Hr Hc. unfold enter. simpl. rewrite Hs. simpl.
  rewrite Ht, Hr. simpl.
  rewrite (leave_Some p _ s) by done. simpl.
  rewrite lookup_insert_eq. simpl. unfold after_leave. rewrite Hr. simpl.
  rewrite (construct_inert app p _ (set_ta None (set_evts ∅ s)));
    [|simpl; apply lookup_insert_eq|done].
  simpl. rewrite lookup_insert_eq. simpl. rewrite map_size_empty. simpl.
  unfold constructed. simpl. by rewrite insert_insert_eq.
Qed.

Lemma enter_reused_dispatch app (p : string) st s i :
  states st !! p = Some s → reuse s = true → ta s = Some i → evts s ≠ ∅ →
  enter app p st = onevt app p (logged (Center p) st).
Proof.
  intros Hs Hr Hi He. unfold enter. simpl.
  rewrite Hs. simpl. rewrite Hr, Hi. simpl.
  rewrite Hs. simpl. rewrite Hr, Hi. simpl.
  rewrite Hs. simpl.
  destruct (size (evts s)) eqn:Hsz; [|done].
  by apply map_size_empty_iff in Hsz.
Qed.

Lemma size_nonempty (m : gmap string (any V)) :
  m ≠ ∅ → negb (Nat.eqb (size m) 0) = true.
Proof.
  intros Hm. destruct (size m) eqn:Hsz; [|done].
  by apply map_size_empty_iff in Hsz.
Qed.

(** X14. Entering a slot that holds no instance builds one, at a fresh
    address and from the parameters stored in the slot, and then delivers
    what was buffered before the state was entered: with no payload nothing
    more happens; with payloads [on_fsm_event] runs on the new instance, or,
    for a class without [on_fsm_event], the payloads are discarded.  (The
    constructor is one that makes no call into the engine.) *)
Theorem X14_enter_builds_and_delivers app (p : string) st s :
  states st !! p = Some s → ta s = None → ctor_inert app (name s) →
  (evts s = ∅ →
     enter app p st = Some (constructed p s (logged (Center p) st))) ∧
  (∀ h, evts s ≠ ∅ → on_fsm_event app (name s) = Some h →
     enter app p st =
       h (logged (Conevt p) (constructed p s (logged (Center p) st)))) ∧
  (evts s ≠ ∅ → on_fsm_event app (name s) = None →
     enter app p st =
       Some (logged (Conevt p)
               (constructed p (set_evts ∅ s) (logged (Center p) st)))).
Proof.
  intros Hs Ht Hc. rewrite (enter_fresh app p st s Hs Ht Hc).
  assert (Hp : states (constructed p s (logged (Center p) st)) !! p
               = Some (set_ta (Some (Instance (heap_next st) (param s))) s)).
  { simpl. apply lookup_insert_eq. }
  split; [|split].
  - intros He. rewrite He. by rewrite map_size_empty.
  - intros h He Hh. rewrite size_nonempty by done.
    by rewrite (onevt_handler app p _ _ h Hp) by (simpl; eauto).
  - intros He Hh. rewrite size_nonempty by done.
    rewrite (onevt_no_handler app p _ _ Hp) by (simpl; eauto).
    f_equal. unfold constructed. simpl. by rewrite insert_insert_eq.
Qed.

(** X15. Entering a slot that still holds an instance, [reuse] not being
    set, first leaves it: the instance is destroyed and a new one is built
    at a fresh address, and the payloads that were buffered on the slot are
    discarded without [onevt] being called.  So the payload that an
    accepted [post_event] buffers on such a slot just before entering it is
    lost. *)
Theorem X15_enter_replaces_instance_drops_payloads app (p : string) st s i :
  states st !! p = Some s → ta s = Some i → reuse s = false →
  ctor_inert app (name s) →
  ∃ st', enter app p st = Some st' ∧
         log st' = log st ++ [Center p; Cleave p] ∧
         heap_next st' = S (heap_next st) ∧
         states st' =
           <[p := set_ta (Some (Instance (heap_next st) (param s)))
                    (set_evts ∅ s)]> (states st) ∧
         (inst_addr i < heap_next st →
          ∀ s', states st' !! p = Some s' → ta s' ≠ Some i ∧ evts s' = ∅).
Proof.
  intros Hs Ht Hr Hc. eexists. split; [by apply (enter_stale app p st s i)|].
  simpl. split; [by rewrite <- app_assoc|]. split; [done|]. split; [done|].
  intros Hi s'. rewrite lookup_insert_eq. intros [= <-]. simpl.
  split; [|done]. intros [= Heq]. destruct i as [a args]. simpl in *.
  injection Heq as Ha _. lia.
Qed.

(** X16. Entering a slot whose instance was kept by [reuse] builds nothing:
    the instance stays, and the payloads buffered on the slot, if any, are
    dispatched to it at once. *)
Theorem X16_enter_reused_dispatches app (p : string) st s i :
  states st !! p = Some s → reuse s = true → ta s = Some i →
  (evts s = ∅ → enter app p st = Some (logged (Center p) st)) ∧
  (∀ h, evts s ≠ ∅ → on_fsm_event app (name s) = Some h →
     enter app p st = h (logged (Conevt p) (logged (Center p) st))) ∧
  (evts s ≠ ∅ → on_fsm_event app (name s) = None →
     enter app p st =
       Some (set_states (<[p := set_evts ∅ s]> (states st))
               (logged (Conevt p) (logged (Center p) st)))).
Proof.
  intros Hs Hr Hi. split; [|split].
  - intros He. by apply (enter_reused app p st s i).
  - intros h He Hh. rewrite (enter_reused_dispatch app p st s i) by done.
    by rewrite (onevt_handler app p _ s h) by (try done; rewrite Hi; eauto).
  - intros He Hh. rewrite (enter_reused_dispatch app p st s i) by done.
    by rewrite (onevt_no_handler app p _ s) by (try done; rewrite Hi; eauto).
Qed.

(** ** A deferred event, from the post to its delivery *)

Lemma post_event_defer app (E : string) (v : V) ps st (tgt c : string) cs ts :
  eof st = false → events st !! E = Some tgt → curstate st = Some c →
  states st !! c = Some cs → name cs ≠ tgt → interrupt E cs = (-1)%Z →
  states st !! tgt = Some ts →
  post_event app E v ps st =
    Some (set_waitstates (waitstates st ++ [tgt])
            (set_states (<[tgt := add_event E v ts]> (states st)) st)).
Proof.
  intros He HE Hc Hs Hne Hv Ht.
  unfold post_event. rewrite He, HE, Hc. simpl. rewrite Hs. simpl.
  rewrite bool_decide_eq_false_2 by done. simpl.
  rewrite Hv. simpl. unfold on_slot. by rewrite Ht.
Qed.

(** X17. A deferred event reaches its target when the active state steps
    down: after a [post_event] that the active state defers, the
    [next_state] of the active state leaves it, makes the target of the
    event the active state (whatever the chain successor is), builds its
    instance and runs its [on_fsm_event] with the payload in the slot, the
    queue being empty again.  (Nothing was deferred before; the slot of the
    target holds no instance, and its constructor makes no call into the
    engine.) *)
Theorem X17_deferred_event_delivered_on_step_down app (E : string) (v : V)
    ps ps' st (tgt c : string) cs ts h :
  wf st → eof st = false → waitstates st = [] →
  events st !! E = Some tgt → curstate st = Some c → states st !! c = Some cs →
  name cs ≠ tgt → verdict_of_code (interrupt E cs) = Defer →
  states st !! tgt = Some ts → ta ts = None →
  ctor_inert app (name ts) → on_fsm_event app (name ts) = Some h →
  ∃ st2 ts',
    (st1 ← post_event app E v ps st; next_state app (name cs) ps' st1) =
      waitsize_decr <$> h st2 ∧
    curstate st2 = Some tgt ∧ waitstates st2 = [] ∧
    log st2 = log st ++ [Cleave c; Center tgt; Conevt tgt] ∧
    states st2 !! c = Some (after_leave cs) ∧
    states st2 !! tgt = Some ts' ∧
    evts ts' = <[E := Any E v]> (evts ts) ∧
    ta ts' = Some (Instance (heap_next st) (param ts')).
Proof.
  intros Hwf He Hq HE Hc Hs Hne Hv Ht Hta Hctor Hh.
  apply verdict_Defer_inv in Hv.
  assert (Hct : c ≠ tgt).
  { intros <-. apply Hne. by apply (wf_name st Hwf). }
  rewrite (post_event_defer app E v ps st tgt c cs ts) by done.
  cbn [mbind option_bind]. rewrite Hq, app_nil_l.
  set (st1 := set_waitstates [tgt]
                (set_states (<[tgt := add_event E v ts]> (states st)) st)).
  assert (Hs1 : states st1 !! c = Some cs).
  { simpl. by rewrite lookup_insert_ne. }
  set (st1' := waitsize_incr (set_waitstates [] st1)).
  assert (Hnext : next_state app (name cs) ps' st1 =
                  waitsize_decr <$> _enter_state app tgt ps' (Some c) st1').
  { by rewrite (next_state_matching app (name cs) ps' st1 c cs). }
  rewrite Hnext.
  rewrite (_enter_state_registered app tgt ps' (Some c) st1' c cs);
    [|simpl; rewrite lookup_insert_eq; by eexists|done|done|done].
  destruct (with_params_lookup_eq app ps' tgt
              (<[c := after_leave cs]> (states st1')) (add_event E v ts))
    as (ts' & Hts' & Hev & Hta' & _ & Hname & _).
  { rewrite lookup_insert_ne by done. simpl. apply lookup_insert_eq. }
  set (st_e := set_states
                 (with_params app ps' tgt (<[c:=after_leave cs]> (states st1')))
                 (logged (Cleave c) (set_curstate (Some tgt) st1'))).
  assert (Hse : states st_e !! tgt = Some ts') by exact Hts'.
  rewrite (enter_fresh app tgt st_e ts' Hse);
    [|by rewrite Hta'|by rewrite Hname].
  rewrite size_nonempty by (rewrite Hev; simpl; apply insert_non_empty).
  set (st_c := constructed tgt ts' (logged (Center tgt) st_e)).
  assert (Hsc : states st_c !! tgt
                = Some (set_ta (Some (Instance (heap_next st) (param ts'))) ts')).
  { simpl. apply lookup_insert_eq. }
  rewrite (onevt_handler app tgt st_c _ h Hsc);
    [|simpl; eauto|simpl; by rewrite Hname].
  exists (logged (Conevt tgt) st_c),
         (set_ta (Some (Instance (heap_next st) (param ts'))) ts').
  split; [done|]. simpl. split; [done|]. split; [done|].
  split; [by rewrite <- !app_assoc|].
  split.
  { rewrite lookup_insert_ne by done.
    rewrite with_params_lookup_ne by done. apply lookup_insert_eq. }
  split; [apply lookup_insert_eq|]. split; [exact Hev|done].
Qed.

(** ** No null pointer is dereferenced *)

Lemma slots_kept_trans st1 st2 st3 :
  slots_kept st1 st2 → slots_kept st2 st3 → slots_kept st1 st3.
Proof. intros H12 H23 p Hp. by apply H23, H12. Qed.

Lemma on_slot_safe (p : string) f st :
  wf st → is_Some (states st !! p) → (∀ s, name (f s) = name s) →
  ∃ st', on_slot p f st = Some st' ∧ wf st' ∧ slots_kept st st'.
Proof.
  intros Hwf [s Hs] Hf. eexists. split; [by apply on_slot_Some|]. split.
  - by apply (wf_on_slot p f st _ Hwf (on_slot_Some p f st s Hs)).
  - intros q Hq. simpl. apply lookup_insert_is_Some'. by right.
Qed.

Lemma leave_safe (p : string) st :
  wf st → is_Some (states st !! p) →
  ∃ st', leave p st = Some st' ∧ wf st' ∧ slots_kept st st'.
Proof.
  intros Hwf Hp. unfold leave.
  apply (on_slot_safe p _ (logged (Cleave p) st)); [by apply wf_logged|done|].
  intros s. simpl. by destruct (reuse s).
Qed.

Lemma onevt_safe app (p : string) st :
  app_safe app → wf st → is_Some (states st !! p) →
  ∃ st', onevt app p st = Some st' ∧ wf st' ∧ slots_kept st st'.
Proof.
  intros [_ Hh] Hwf [s Hs]. unfold onevt. simpl. rewrite Hs. simpl.
  apply (wf_logged (Conevt p)) in Hwf.
  destruct (ta s).
  - destruct (on_fsm_event app (name s)) as [h|] eqn:Hhe.
    + apply (Hh _ h Hhe _ Hwf).
    + apply (on_slot_safe p _ (logged (Conevt p) st)); [done|by eexists|done].
  - eexists. split; [done|]. split; [done|]. by intros q Hq.
Qed.

Lemma construct_safe app (p : string) st :
  app_safe app → wf st → is_Some (states st !! p) →
  ∃ st', construct app p st = Some st' ∧ wf st' ∧ slots_kept st st'.
Proof.
  intros [Hc _] Hwf [s Hs]. unfold construct. rewrite Hs. simpl.
  destruct (Hc (name s) (param s) (set_heap_next (S (heap_next st)) st)
              (wf_set_heap_next _ _ Hwf)) as (st1 & H1 & Hwf1 & Hk1).
  rewrite H1. simpl.
  destruct (on_slot_safe p (set_ta (Some (Instance (heap_next st) (param s))))
              st1 Hwf1) as (st' & H2 & Hwf2 & Hk2).
  { apply Hk1. simpl. by eexists. }
  { done. }
  exists st'. split; [done|]. split; [done|].
  intros q Hq. apply Hk2, Hk1. exact Hq.
Qed.

Lemma enter_safe app (p : string) st :
  app_safe app → wf st → is_Some (states st !! p) →
  ∃ st', enter app p st = Some st' ∧ wf st' ∧ slots_kept st st'.
Proof.
  intros Happ Hwf Hp. unfold enter.
  apply (wf_logged (Center p)) in Hwf.
  assert (Hp0 : is_Some (states (logged (Center p) st) !! p)) by exact Hp.
  assert (Hk0 : slots_kept st (logged (Center p) st)) by (by intros q Hq).
  revert Hwf Hp0 Hk0. generalize (logged (Center p) st). intros st0 Hwf Hp0 Hk0.
  destruct Hp0 as [s Hs]. rewrite Hs. cbn [mbind option_bind].
  assert (H1 : ∃ st1, (if bool_decide (is_Some (ta s)) && negb (reuse s)
                       then leave p st0 else Some st0) = Some st1
                      ∧ wf st1 ∧ slots_kept st0 st1).
  { destruct (_ && _).
    - apply leave_safe; [done|by eexists].
    - exists st0. split; [done|]. split; [done|]. by intros q Hq. }
  destruct H1 as (st1 & -> & Hwf1 & Hk1). cbn [mbind option_bind].
  destruct (Hk1 p ltac:(by eexists)) as [s1 Hs1].
  rewrite Hs1. cbn [mbind option_bind].
  assert (H2 : ∃ st2, (if negb (bool_decide (is_Some (ta s1))) || negb (reuse s1)
                       then construct app p st1 else Some st1) = Some st2
                      ∧ wf st2 ∧ slots_kept st1 st2).
  { destruct (_ || _).
    - apply construct_safe; [done|done|by eexists].
    - exists st1. split; [done|]. split; [done|]. by intros q Hq. }
  destruct H2 as (st2 & -> & Hwf2 & Hk2). cbn [mbind option_bind].
  destruct (Hk2 p ltac:(by eexists)) as [s2 Hs2].
  rewrite Hs2. cbn [mbind option_bind].
  assert (H3 : ∃ st3, (if negb (Nat.eqb (size (evts s2)) 0)
                       then onevt app p st2 else Some st2) = Some st3
                      ∧ wf st3 ∧ slots_kept st2 st3).
  { destruct (negb _).
    - apply onevt_safe; [done|done|by eexists].
    - exists st2. split; [done|]. split; [done|]. by intros q Hq. }
  destruct H3 as (st3 & -> & Hwf3 & Hk3).
  exists st3. split; [done|]. split; [done|].
  intros q Hq. apply Hk3, Hk2, Hk1, Hk0. exact Hq.
Qed.

Lemma _enter_state_safe app (T : string) ps (old : option string) st :
  app_safe app → wf st → (∀ o, old = Some o → is_Some (states st !! o)) →
  ∃ st', _enter_state app T ps old st = Some st' ∧ wf st' ∧ slots_kept st st'.
Proof.
  intros Happ Hwf Hold. unfold _enter_state.
  set (newstate := match states st !! T with Some _ => Some T | None => None end).
  assert (Hnew : ∀ n, newstate = Some n → is_Some (states st !! n)).
  { intros n. unfold newstate. destruct (states st !! T) eqn:HT; [|done].
    intros [= <-]. by eexists. }
  assert (Hcur : wf (set_curstate newstate st)) by (by apply wf_set_curstate).
  set (oldstate := match old with Some _ => old | None => curstate st end).
  assert (Hold' : ∀ o, oldstate = Some o → is_Some (states st !! o)).
  { intros o. unfold oldstate. destruct old as [o'|].
    - apply Hold.
    - apply (wf_cur st Hwf). }
  destruct (decide (oldstate = newstate)) as [Heq|Hneq].
  { eexists. split; [done|]. split; [done|]. by intros q Hq. }
  assert (H1 : ∃ st1, (match oldstate with
                       | Some o => leave o (set_curstate newstate st)
                       | None => Some (set_curstate newstate st)
                       end) = Some st1 ∧ wf st1 ∧ slots_kept st st1).
  { destruct oldstate as [o|].
    - destruct (leave_safe o (set_curstate newstate st) Hcur (Hold' o eq_refl))
        as (st1 & H1 & Hwf1 & Hk1).
      exists st1. split; [done|]. split; [done|]. exact Hk1.
    - eexists. split; [done|]. split; [done|]. by intros q Hq. }
  destruct H1 as (st1 & -> & Hwf1 & Hk1). cbn [mbind option_bind].
  destruct newstate as [n|].
  - assert (Hn1 : is_Some (states st1 !! n)) by (apply Hk1; by apply Hnew).
    assert (H2 : ∃ st2, (if negb (Nat.eqb (length ps) 0)
                         then on_slot n (set_params app ps) st1 else Some st1)
                        = Some st2 ∧ wf st2 ∧ slots_kept st1 st2).
    { destruct (negb _).
      - apply on_slot_safe; [done|done|apply set_params_name].
      - eexists. split; [done|]. split; [done|]. by intros q Hq. }
    destruct H2 as (st2 & -> & Hwf2 & Hk2). cbn [mbind option_bind].
    destruct (enter_safe app n st2 Happ Hwf2 (Hk2 n Hn1))
      as (st3 & H3 & Hwf3 & Hk3).
    exists st3. split; [done|]. split; [done|].
    intros q Hq. apply Hk3, Hk2, Hk1. exact Hq.
  - cbn [mbind option_bind]. exists st1. done.
Qed.

Lemma next_state_safe app (T : string) ps st :
  app_safe app → wf st →
  ∃ st', next_state app T ps st = Some st' ∧ wf st' ∧ slots_kept st st'.
Proof.
  intros Happ Hwf. unfold next_state.
  destruct (eof st || negb (bool_decide (is_Some (curstate st)))) eqn:Hg.
  { exists st. split; [done|]. split; [done|]. by intros q Hq. }
  apply orb_false_iff in Hg as [_ Hg].
  apply negb_false_iff, bool_decide_eq_true in Hg as [c Hc].
  rewrite Hc. cbn [mbind option_bind].
  destruct (wf_cur st Hwf c Hc) as [cs Hs]. rewrite Hs. cbn [mbind option_bind].
  destruct (negb (bool_decide (name cs = T))).
  { exists st. split; [done|]. split; [done|]. by intros q Hq. }
  destruct (waitstates st) as [|y q].
  - destruct (_enter_state_safe app (nextstate cs) ps (Some c) (waitsize_incr st)
                Happ (wf_waitsize_incr _ Hwf))
      as (st2 & H2 & Hwf2 & Hk2).
    { intros o [= <-]. simpl. by eexists. }
    rewrite H2. cbn [mbind option_bind].
    eexists. split; [done|]. split; [by apply wf_waitsize_decr|exact Hk2].
  - destruct (_enter_state_safe app y ps (Some c)
                (waitsize_incr (set_waitstates q st))
                Happ (wf_waitsize_incr _ (wf_set_waitstates q _ Hwf)))
      as (st2 & H2 & Hwf2 & Hk2).
    { intros o [= <-]. simpl. by eexists. }
    rewrite H2. cbn [mbind option_bind].
    eexists. split; [done|]. split; [by apply wf_waitsize_decr|exact Hk2].
Qed.

Lemma post_event_safe app (E : string) (v : V) ps st :
  app_safe app → wf st →
  ∃ st', post_event app E v ps st = Some st' ∧ wf st' ∧ slots_kept st st'.
Proof.
  intros Happ Hwf. unfold post_event.
  destruct (eof st).
  { exists st. split; [done|]. split; [done|]. by intros q Hq. }
  destruct (negb (bool_decide (is_Some (events st !! E)))
            && negb (bool_decide (is_Some (curstate st)))) eqn:Hidle.
  { exists st. split; [done|]. split; [done|]. by intros q Hq. }
  destruct (_ || _) eqn:Hsel.
  - assert (Hc : is_Some (curstate st)).
    { destruct (curstate st) as [c|] eqn:Hc; [by eexists|].
      simpl in Hsel. rewrite Hsel in Hidle. done. }
    destruct Hc as [c Hc]. rewrite Hc. cbn [mbind option_bind].
    destruct (on_slot_safe c (add_event E v) st Hwf (wf_cur st Hwf c Hc)
                (add_event_name E v)) as (st1 & H1 & Hwf1 & Hk1).
    rewrite H1. cbn [mbind option_bind].
    destruct (onevt_safe app c (waitsize_incr st1) Happ
                (wf_waitsize_incr _ Hwf1)) as (st2 & H2 & Hwf2 & Hk2).
    { simpl. apply Hk1. by apply (wf_cur st Hwf). }
    rewrite H2. cbn [mbind option_bind].
    eexists. split; [done|]. split; [by apply wf_waitsize_decr|].
    intros q Hq. apply Hk2. simpl. by apply Hk1.
  - apply orb_false_iff in Hsel as [_ Hex].
    apply negb_false_iff, bool_decide_eq_true in Hex as [tgt Htgt].
    rewrite Htgt. simpl default.
    destruct (wf_events st Hwf E tgt Htgt) as [ts Ht].
    assert (Hcode : ∃ code, (match curstate st with
                             | Some c => cs ← states st !! c; Some (interrupt E cs)
                             | None => Some 1%Z
                             end) = Some code).
    { destruct (curstate st) as [c|] eqn:Hc; [|by eexists].
      destruct (wf_cur st Hwf c Hc) as [cs Hs]. rewrite Hs. by eexists. }
    destruct Hcode as [code ->]. cbn [mbind option_bind].
    assert (H1 : ∃ st1, (if negb (Z.eqb code 0)
                         then on_slot tgt (add_event E v) st else Some st)
                        = Some st1 ∧ wf st1 ∧ slots_kept st st1
                        ∧ curstate st1 = curstate st).
    { destruct (negb (Z.eqb code 0)).
      - destruct (on_slot_safe tgt (add_event E v) st Hwf ltac:(by eexists)
                    (add_event_name E v)) as (st1 & H1 & Hwf1 & Hk1).
        exists st1. split; [done|]. split; [done|]. split; [done|].
        unfold on_slot in H1. rewrite Ht in H1. by injection H1 as <-.
      - exists st. split; [done|]. split; [done|]. split; [by intros q Hq|done]. }
    destruct H1 as (st1 & -> & Hwf1 & Hk1 & Hc1). cbn [mbind option_bind].
    set (st2 := if Z.eqb code (-1)
                then set_waitstates (waitstates st1 ++ [tgt]) st1 else st1).
    assert (Hwf2 : wf st2).
    { unfold st2. destruct (Z.eqb code (-1)); [by apply wf_set_waitstates|done]. }
    assert (Hk2 : slots_kept st st2).
    { unfold st2. destruct (Z.eqb code (-1)); exact Hk1. }
    destruct (Z.ltb code 1).
    { exists st2. done. }
    destruct (_enter_state_safe app tgt ps (curstate st2) (waitsize_incr st2)
                Happ (wf_waitsize_incr _ Hwf2))
      as (st3 & H3 & Hwf3 & Hk3).
    { intros o Ho. simpl. by apply (wf_cur st2 Hwf2). }
    rewrite H3. cbn [mbind option_bind].
    eexists. split; [done|]. split; [by apply wf_waitsize_decr|].
    intros q Hq. apply Hk3. simpl. by apply Hk2.
Qed.

(** X18. On a well-formed machine [enter_state], [next_state] and
    [post_event] never dereference a null pointer: they return, the machine
    they return is well-formed again, and no slot has been removed.  The
    constructors and event handlers that run inside are any code of which
    the same is true. *)
Theorem X18_coordinator_never_faults app :
  app_safe app →
  (∀ (T : string) ps, safe_call (enter_state app T ps)) ∧
  (∀ (T : string) ps, safe_call (next_state app T ps)) ∧
  (∀ (E : string) (v : V) ps, safe_call (post_event app E v ps)).
Proof.
  intros Happ. split; [|split].
  - intros T ps st Hwf. by apply _enter_state_safe.
  - intros T ps st Hwf. by apply next_state_safe.
  - intros E v ps st Hwf. by apply post_event_safe.
Qed.

Lemma inert_app_safe (n : nat) : @app_safe V (inert_app n).
Proof.
  split.
  - intros T args st Hwf. exists st. split; [done|]. split; [done|].
    by intros q Hq.
  - intros T h H. done.
Qed.

(** ** The invariant of the machine *)

(** X19. The registration functions build well-formed machines: the empty
    machine is well-formed, and [regist_state], [regist_chain_state],
    [regist_trans_event], the three list registrations and [option_reuse]
    keep a machine well-formed: every slot stays stored under its own name,
    and the active pointer and every route keep pointing to registered
    slots. *)
Theorem X19_registration_keeps_wf (Ts : list string) (T : string) st :
  wf (@empty_fsm V) ∧
  (wf st → wf (regist_state Ts st)) ∧
  (∀ st', wf st → regist_chain_state Ts st = Some st' → wf st') ∧
  (wf st → wf (regist_trans_event T Ts st)) ∧
  (∀ st', wf st → regist_white_event T Ts st = Some st' → wf st') ∧
  (∀ st', wf st → regist_black_event T Ts st = Some st' → wf st') ∧
  (∀ st', wf st → regist_defer_event T Ts st = Some st' → wf st') ∧
  (∀ st', wf st → option_reuse Ts st = Some st' → wf st').
Proof.
  split; [apply wf_empty_fsm|].
  split; [apply wf_regist_state|].
  split; [intros st'; apply wf_regist_chain_state|].
  split; [apply wf_regist_trans_event|].
  split; [|split; [|split]].
  - intros st' Hwf H.
    by apply (wf_regist_list_event T (add_white_event Ts) st st').
  - intros st' Hwf H.
    by apply (wf_regist_list_event T (add_black_event Ts) st st').
  - intros st' Hwf H.
    by apply (wf_regist_list_event T (add_defer_event Ts) st st').
  - intros st'. apply wf_option_reuse.
Qed.

(** X20. Well-formedness is an invariant of the running machine: whatever
    sequence of [next_state], [post_event], [enter_state] and [get_event]
    calls is made, by the caller or, at any depth, from the constructors
    and event handlers that those calls run, a well-formed machine stays
    well-formed. *)
Theorem X20_wf_is_invariant (prog : string → Script.class) (n fuel : nat)
    args (cs : list Script.stmt) st st' :
  wf st → Script.run (Script.app_of (V := V) prog n fuel) args cs st = Some st' →
  wf st'.
Proof.
  intros Hwf H.
  by apply (wf_script_run _ args cs st st' (wf_app_of prog n fuel) Hwf H).
Qed.

(** ** What a transition never writes *)

Lemma on_slot_config st0 (p : string) f st st' :
  same_config st0 st → on_slot p f st = Some st' →
  (∀ s, config (f s) = config s) → same_config st0 st'.
Proof.
  intros [He Hs] H Hf. unfold on_slot in H. bind_inv H. injection H as <-.
  split; [done|]. intros q. simpl. rewrite <- Hs, lookup_insert.
  destruct (decide (p = q)) as [<-|Hne]; [|done].
  rewrite Hx. simpl. by rewrite Hf.
Qed.

Lemma leave_config st0 (p : string) st st' :
  same_config st0 st → leave p st = Some st' → same_config st0 st'.
Proof.
  intros Hc H. unfold leave in H.
  apply (on_slot_config st0 p _ (logged (Cleave p) st) st' Hc H).
  intros s. simpl. by destruct (reuse s).
Qed.

Lemma onevt_config app st0 (p : string) st st' :
  app_keeps_config app → same_config st0 st → onevt app p st = Some st' →
  same_config st0 st'.
Proof.
  intros Hk Hc H. unfold onevt in H. bind_inv H.
  destruct (ta x).
  - destruct (on_fsm_event app (name x)) as [h|] eqn:Hh.
    + by apply (proj2 (Hk st0) _ h Hh (logged (Conevt p) st) st').
    + by apply (on_slot_config st0 p _ (logged (Conevt p) st) st' Hc H).
  - by injection H as <-.
Qed.

Lemma construct_config app st0 (p : string) st st' :
  app_keeps_config app → same_config st0 st → construct app p st = Some st' →
  same_config st0 st'.
Proof.
  intros Hk Hc H. unfold construct in H. bind_inv H. bind_inv H.
  apply (proj1 (Hk st0) _ _ (set_heap_next (S (heap_next st)) st) x0 Hc) in Hx0.
  by apply (on_slot_config st0 p _ x0 st' Hx0 H).
Qed.

Lemma enter_config app st0 (p : string) st st' :
  app_keeps_config app → same_config st0 st → enter app p st = Some st' →
  same_config st0 st'.
Proof.
  intros Hk Hc H. unfold enter in H.
  bind_inv H. bind_inv H. bind_inv H. bind_inv H. bind_inv H.
  assert (H1 : same_config st0 x0).
  { destruct (_ && _) in Hx0.
    - by apply (leave_config st0 p (logged (Center p) st)).
    - by injection Hx0 as <-. }
  assert (H2 : same_config st0 x2).
  { destruct (_ || _) in Hx2.
    - by apply (construct_config app st0 p x0).
    - by injection Hx2 as <-. }
  destruct (negb _) in H.
  - by apply (onevt_config app st0 p x2).
  - by injection H as <-.
Qed.

Lemma set_params_config app ps s : config (set_params app ps s) = config s.
Proof. unfold set_params. by destruct (negb _). Qed.

Lemma _enter_state_config app st0 (T : string) ps old st st' :
  app_keeps_config app → same_config st0 st →
  _enter_state app T ps old st = Some st' → same_config st0 st'.
Proof.
  intros Hk Hc H. unfold _enter_state in H.
  destruct (decide _) in H; [by injection H as <-|].
  bind_inv H. bind_inv H.
  assert (H1 : same_config st0 x).
  { destruct (match old with Some _ => old | None => curstate st end) as [o|].
    - apply (leave_config st0 o _ x) in Hx; [done|exact Hc].
    - by injection Hx as <-. }
  destruct (states st !! T).
  - apply (enter_config app st0 T x0 st' Hk); [|done].
    destruct (negb _) in Hx0.
    + apply (on_slot_config st0 T _ x x0 H1 Hx0 (set_params_config app ps)).
    + by injection Hx0 as <-.
  - injection H as <-. by injection Hx0 as <-.
Qed.

Lemma next_state_config app st0 (T : string) ps st st' :
  app_keeps_config app → same_config st0 st →
  next_state app T ps st = Some st' → same_config st0 st'.
Proof.
  intros Hk Hc H. unfold next_state in H.
  destruct (_ || _) in H; [by injection H as <-|].
  bind_inv H. bind_inv H.
  destruct (negb _) in H; [by injection H as <-|].
  destruct (waitstates st) as [|y q]; bind_inv H; injection H as <-;
    by apply (_enter_state_config app st0 _ _ _ _ _ Hk) in Hx1.
Qed.

Lemma post_event_config app st0 (E : string) (v : V) ps st st' :
  app_keeps_config app → same_config st0 st →
  post_event app E v ps st = Some st' → same_config st0 st'.
Proof.
  intros Hk Hc H. unfold post_event in H.
  destruct (eof st); [by injection H as <-|].
  destruct (_ && _) in H; [by injection H as <-|].
  destruct (_ || _) in H.
  - bind_inv H. bind_inv H. bind_inv H. injection H as <-.
    apply (onevt_config app st0 _ _ _ Hk) in Hx1; [done|].
    by apply (on_slot_config st0 _ _ st x0 Hc Hx0).
  - bind_inv H. bind_inv H.
    assert (H1 : same_config st0 x0).
    { destruct (negb (Z.eqb x 0)) in Hx0.
      - by apply (on_slot_config st0 _ _ st x0 Hc Hx0).
      - by injection Hx0 as <-. }
    assert (H2 : same_config st0
                   (if Z.eqb x (-1)
                    then set_waitstates
                           (waitstates x0 ++ [default "" (events st !! E)]) x0
                    else x0)).
    { by destruct (Z.eqb x (-1)). }
    destruct (Z.ltb x 1); [by injection H as <-|].
    bind_inv H. injection H as <-.
    by apply (_enter_state_config app st0 _ _ _ _ _ Hk) in Hx1.
Qed.

Lemma same_config_refl st : same_config st st.
Proof. by split. Qed.

(** X21. Transitions and posts never write what registration set up:
    after [enter_state], [next_state] or [post_event] the routing table is
    the same, the same states are registered, and every slot has the reuse
    flag, the name, the chain successor and the three lists it had.  (The
    constructors and event handlers that run inside register nothing.) *)
Theorem X21_transitions_keep_configuration app :
  app_keeps_config app →
  (∀ (T : string) ps st st',
     enter_state app T ps st = Some st' → same_config st st') ∧
  (∀ (T : string) ps st st',
     next_state app T ps st = Some st' → same_config st st') ∧
  (∀ (E : string) (v : V) ps st st',
     post_event app E v ps st = Some st' → same_config st st').
Proof.
  intros Hk. split; [|split].
  - intros T ps st st' H.
    apply (_enter_state_config app st T ps None st st' Hk (same_config_refl st) H).
  - intros T ps st st' H.
    apply (next_state_config app st T ps st st' Hk (same_config_refl st) H).
  - intros E v ps st st' H.
    apply (post_event_config app st E v ps st st' Hk (same_config_refl st) H).
Qed.

Lemma inert_app_keeps_config (n : nat) : @app_keeps_config V (inert_app n).
Proof.
  intros st0. split.
  - intros T args st st' Hc H. simpl in H. by injection H as <-.
  - intros T h H. done.
Qed.

(** ** The first transition *)

(** X22. [enter_state<T>(params...)] on a machine with no active state, [T]
    being registered, never entered and without buffered payloads: [T]
    becomes the active state, no state is left, and [get_state<T>] returns
    a new instance built from the parameters of the call (from the
    parameters stored in the slot when the machine has no constructor
    parameter).  Seen from another active state the same happens after
    that state was left.  (The constructor of [T] makes no call into the
    engine.) *)
Theorem X22_enter_state_builds_from_params app (T : string) ps st s :
  wf st → states st !! T = Some s → ta s = None → evts s = ∅ →
  ctor_inert app T → length ps = arity app →
  let args := if negb (Nat.eqb (length ps) 0) then ps else param s in
  (curstate st = None →
     ∃ st', enter_state app T ps st = Some st' ∧
            in_state T st' = true ∧
            get_state T st' = Some (Instance (heap_next st) args) ∧
            log st' = log st ++ [Center T]) ∧
  (∀ c cs, curstate st = Some c → c ≠ T → states st !! c = Some cs →
     ∃ st', enter_state app T ps st = Some st' ∧
            in_state T st' = true ∧
            get_state T st' = Some (Instance (heap_next st) args) ∧
            states st' !! c = Some (after_leave cs) ∧
            log st' = log st ++ [Cleave c; Center T]).
Proof.
  intros Hwf Hs Ht He Hctor Hlen args.
  pose proof (wf_name st Hwf T s Hs) as Hname.
  assert (Hfinal : ∀ st_e s',
            states st_e !! T = Some s' → curstate st_e = Some T →
            heap_next st_e = heap_next st →
            evts s' = ∅ → ta s' = None → name s' = T → param s' = args →
            ∃ st', enter app T st_e = Some st' ∧ in_state T st' = true ∧
                   get_state T st' = Some (Instance (heap_next st) args) ∧
                   log st' = log st_e ++ [Center T] ∧
                   ∀ q, q ≠ T → states st' !! q = states st_e !! q).
  { intros st_e s' Hs' Hc' Hh' He' Ht' Hn' Hp'.
    rewrite (enter_fresh app T st_e s' Hs' Ht') by (by rewrite Hn').
    rewrite He', map_size_empty. simpl.
    eexists. split; [done|]. split; [|split; [|split]].
    - unfold in_state. simpl. rewrite Hc', lookup_insert_eq. simpl.
      by apply bool_decide_eq_true_2.
    - unfold get_state, exist_state. simpl. rewrite lookup_insert_eq. simpl.
      by rewrite Hh', Hp'.
    - done.
    - intros q Hq. simpl. by rewrite lookup_insert_ne. }
  assert (Hargs : ∀ ds', param ds' =
            (if negb (Nat.eqb (length ps) 0) && Nat.eqb (arity app) (length ps)
             then ps else param s) → param ds' = args).
  { intros ds' ->. unfold args. rewrite Hlen, Nat.eqb_refl.
    by rewrite andb_true_r. }
  split.
  - intros Hc. unfold enter_state.
    rewrite (_enter_state_from_idle app T ps None st);
      [|by eexists|by simpl].
    destruct (with_params_lookup_eq app ps T (states st) s Hs)
      as (s' & Hs' & Hev & Hta & _ & Hn & _ & Hp).
    destruct (Hfinal (set_states (with_params app ps T (states st))
                        (set_curstate (Some T) st)) s')
      as (st' & H1 & H2 & H3 & H4 & _); try done; try congruence.
    { by apply Hargs. }
    exists st'. done.
  - intros c cs Hc Hne Hcs. unfold enter_state.
    rewrite (_enter_state_registered app T ps None st c cs);
      [|by eexists|by simpl|done|done].
    destruct (with_params_lookup_eq app ps T
                (<[c := after_leave cs]> (states st)) s)
      as (s' & Hs' & Hev & Hta & _ & Hn & _ & Hp).
    { by rewrite lookup_insert_ne. }
    destruct (Hfinal (set_states
                        (with_params app ps T (<[c:=after_leave cs]> (states st)))
                        (logged (Cleave c) (set_curstate (Some T) st))) s')
      as (st' & H1 & H2 & H3 & H4 & H5); try done; try congruence.
    { by apply Hargs. }
    exists st'. split; [done|]. split; [done|]. split; [done|]. split.
    + rewrite H5 by done. simpl.
      rewrite with_params_lookup_ne by done. apply lookup_insert_eq.
    + rewrite H4. simpl. by rewrite <- app_assoc.
Qed.

End Coverage.

(** * The properties on the example machines *)

Section Instances.

Open Scope list_scope.

Import Robot.

Ltac run := vm_compute; reflexivity.
Ltac decided := apply (bool_decide_unpack _); vm_compute; exact I.

(** C1 on a slot whose lists overlap. *)
Lemma C1_witness :
  ("F" ∈ whitelist Tiny.guarded ∧ "F" ∈ blacklist Tiny.guarded ∧
   verdict_of_code (interrupt "F" Tiny.guarded) = Reject) ∧
  ("E" ∈ whitelist Tiny.guarded ∧ ("E" ∉ blacklist Tiny.guarded) ∧
   "E" ∈ deferlist Tiny.guarded ∧
   verdict_of_code (interrupt "E" Tiny.guarded) = Defer).
Proof.
  assert (H1 : "F" ∈ whitelist Tiny.guarded) by decided.
  assert (H2 : "F" ∈ blacklist Tiny.guarded) by decided.
  assert (H3 : "E" ∈ whitelist Tiny.guarded) by decided.
  assert (H4 : "E" ∉ blacklist Tiny.guarded) by decided.
  assert (H5 : "E" ∈ deferlist Tiny.guarded) by decided.
  split.
  - split; [exact H1|]. split; [exact H2|].
    exact (proj1 (proj2 (C1_interrupt_precedence Tiny.guarded "F")) H1 H2).
  - split; [exact H3|]. split; [exact H4|]. split; [exact H5|].
    exact (proj2 (proj2 (C1_interrupt_precedence Tiny.guarded "E")) H3 H4 H5).
Defined.


(** C7 on a slot whose entry for [E] holds another type. *)
Lemma C7_witness :
  evts Tiny.misused !! "E" = Some (Any "F" 5%Z) ∧ "F" ≠ "E" ∧
  get_event "E" Tiny.misused = (None, Tiny.misused) ∧
  evts (get_event "E" Tiny.misused).2 !! "E" = Some (Any "F" 5%Z).
Proof.
  assert (H1 : evts Tiny.misused !! "E" = Some (Any "F" 5%Z)) by run.
  assert (H2 : any_type (Any "F" 5%Z) ≠ "E") by (intros H; discriminate H).
  split; [exact H1|]. split; [exact H2|].
  exact (proj2 (proj2 (proj2 (proj2
           (C7_get_event_round_trip Tiny.misused "E" 0%Z)))) _ H1 H2).
Defined.

(** C8 on a machine whose only state is reused and holds a payload. *)
Lemma C8_witness :
  states Tiny.reused !! "A" = Some (slot_at "A" Tiny.reused) ∧
  reuse (slot_at "A" Tiny.reused) = true ∧
  ta (slot_at "A" Tiny.reused) = Some (Instance 0 []) ∧
  (st1 ← leave "A" Tiny.reused; enter (inert_app 0) "A" st1) =
    Some (set_states
            (<["A" := set_evts ∅ (slot_at "A" Tiny.reused)]> (states Tiny.reused))
            (logged (Center "A") (logged (Cleave "A") Tiny.reused))).
Proof.
  assert (H1 : states Tiny.reused !! "A" = Some (slot_at "A" Tiny.reused)) by run.
  assert (H2 : reuse (slot_at "A" Tiny.reused) = true) by run.
  assert (H3 : ta (slot_at "A" Tiny.reused) = Some (Instance 0 [])) by run.
  split; [exact H1|]. split; [exact H2|]. split; [exact H3|].
  exact (proj2 (C8_leave_clears_and_reuse_keeps (inert_app 0) "A" Tiny.reused
                  _ H1) _ H2 H3).
Defined.

(** C9 on the robot: [CleanState], left for [RechargeState], advances
    again. *)
Lemma C9_witness :
  wf recharging ∧ in_state "CleanState" recharging = false ∧
  next_state app "CleanState" ofs recharging = Some recharging.
Proof.
  assert (H1 : wf recharging) by (apply wf_check_sound; run).
  assert (H2 : in_state "CleanState" recharging = false) by run.
  split; [exact H1|]. split; [exact H2|].
  exact (C9_stale_next_state_ignored app "CleanState" ofs recharging H1 H2).
Defined.

(** C5 on the robot: a [CleanEvent] posted while recharging. *)
Lemma C5_witness :
  events recharging !! "CleanEvent" = Some "CleanState" ∧
  curstate recharging = Some "RechargeState" ∧
  states recharging !! "RechargeState" = Some (slot_at "RechargeState" recharging) ∧
  name (slot_at "RechargeState" recharging) ≠ "CleanState" ∧
  verdict_of_code (interrupt "CleanEvent" (slot_at "RechargeState" recharging))
    = Reject ∧
  post_event app "CleanEvent" 2%Z ofs recharging = Some recharging.
Proof.
  assert (H1 : events recharging !! "CleanEvent" = Some "CleanState") by run.
  assert (H2 : curstate recharging = Some "RechargeState") by run.
  assert (H3 : states recharging !! "RechargeState"
               = Some (slot_at "RechargeState" recharging)) by run.
  assert (H4 : name (slot_at "RechargeState" recharging) ≠ "CleanState")
    by decided.
  assert (H5 : verdict_of_code
                 (interrupt "CleanEvent" (slot_at "RechargeState" recharging))
               = Reject) by run.
  split; [exact H1|]. split; [exact H2|]. split; [exact H3|].
  split; [exact H4|]. split; [exact H5|].
  exact (C5_rejected_event_dropped app "CleanEvent" 2%Z ofs recharging
           _ _ _ H1 H2 H3 H4 H5).
Defined.

(** C3 on the robot: a [CleanEvent] posted while the map is built, the
    [BuildMapState] deferring it. *)
Lemma C3_witness :
  wf build ∧ eof build = false ∧
  events build !! "CleanEvent" = Some "CleanState" ∧
  curstate build = Some "BuildMapState" ∧
  states build !! "BuildMapState" = Some (slot_at "BuildMapState" build) ∧
  name (slot_at "BuildMapState" build) ≠ "CleanState" ∧
  verdict_of_code (interrupt "CleanEvent" (slot_at "BuildMapState" build))
    = Defer ∧
  ∃ ts st',
    states build !! "CleanState" = Some ts ∧
    post_event (inert_app 1) "CleanEvent" 7%Z ofs build = Some st' ∧
    st' = set_waitstates (waitstates build ++ ["CleanState"])
            (set_states (<["CleanState" := add_event "CleanEvent" 7%Z ts]>
                           (states build)) build) ∧
    evts (add_event "CleanEvent" 7%Z ts) !! "CleanEvent"
      = Some (Any "CleanEvent" 7%Z) ∧
    states st' !! "BuildMapState" = Some (slot_at "BuildMapState" build) ∧
    curstate st' = Some "BuildMapState" ∧ log st' = log build ∧
    waitstates st' = waitstates build ++ ["CleanState"] ∧
    (∃ ts', states st' !! "CleanState" = Some ts' ∧
            evts ts' !! "CleanEvent" = Some (Any "CleanEvent" 7%Z) ∧
            (∀ F, F ≠ "CleanEvent" → evts ts' !! F = evts ts !! F) ∧
            ta ts' = ta ts ∧ param ts' = param ts ∧ config ts' = config ts) ∧
    "CleanState" ≠ "BuildMapState" ∧
    (∀ p, p ≠ "CleanState" → states st' !! p = states build !! p) ∧
    events st' = events build ∧ eof st' = eof build ∧
    waitsize st' = waitsize build ∧ heap_next st' = heap_next build.
Proof.
  assert (H1 : wf build) by (apply wf_check_sound; run).
  assert (H2 : eof build = false) by run.
  assert (H3 : events build !! "CleanEvent" = Some "CleanState") by run.
  assert (H4 : curstate build = Some "BuildMapState") by run.
  assert (H5 : states build !! "BuildMapState"
               = Some (slot_at "BuildMapState" build)) by run.
  assert (H6 : name (slot_at "BuildMapState" build) ≠ "CleanState") by decided.
  assert (H7 : verdict_of_code
                 (interrupt "CleanEvent" (slot_at "BuildMapState" build))
               = Defer) by run.
  split; [exact H1|]. split; [exact H2|]. split; [exact H3|].
  split; [exact H4|]. split; [exact H5|]. split; [exact H6|].
  split; [exact H7|].
  exact (C3_deferred_event_buffered_on_target (inert_app 1) "CleanEvent" 7%Z ofs
           build _ _ _ H1 H2 H3 H4 H5 H6 H7).
Defined.


(** The same post, computed: [deferred] is the machine it returns.  The
    queue, empty before, holds [CleanState]; the payload is in the slot of
    [CleanState] and not in that of the active [BuildMapState]; the active
    state and the history of slot calls are those of [build]. *)
Example build_post_deferred :
  post_event (inert_app 1) "CleanEvent" 7%Z ofs build = Some deferred ∧
  waitstates build = [] ∧
  waitstates deferred = ["CleanState"] ∧
  evts (slot_at "CleanState" build) !! "CleanEvent" = None ∧
  evts (slot_at "CleanState" deferred) !! "CleanEvent"
    = Some (Any "CleanEvent" 7%Z) ∧
  evts (slot_at "BuildMapState" deferred) !! "CleanEvent" = None ∧
  curstate deferred = Some "BuildMapState" ∧
  log deferred = log build.
Proof. repeat apply conj; run. Qed.

(** The example program runs as its log file shows: entering [ReadyState]
    ends in [RechargeState], through [BuildMapState] and [CleanState], and
    the [CleanEvent] posted afterwards is dropped. *)
Example robot_run :
  curstate recharging = Some "RechargeState" ∧
  log recharging =
    [Center "ReadyState"; Cleave "ReadyState"; Center "BuildMapState";
     Cleave "BuildMapState"; Center "CleanState"; Conevt "CleanState";
     Cleave "CleanState"; Center "RechargeState"] ∧
  in_state "RechargeState" recharging = true ∧
  post_event app "CleanEvent" 2%Z ofs recharging = Some recharging.
Proof. repeat apply conj; run. Qed.

(** [option_reuse] of a state that is not registered dereferences the null
    pointer that [get] returns. *)
Example option_reuse_unregistered :
  states Tiny.lone !! "B" = None ∧ option_reuse ["B"] Tiny.lone = None.
Proof. split; run. Qed.

(** C2 on the robot: [BuildMapState] advances with [CleanState] deferred. *)
Lemma C2_witness :
  eof deferred = false ∧ curstate deferred = Some "BuildMapState" ∧
  states deferred !! "BuildMapState" = Some (slot_at "BuildMapState" deferred) ∧
  name (slot_at "BuildMapState" deferred) = "BuildMapState" ∧
  (- 2 ^ 31 ≤ waitsize deferred < 2 ^ 31)%Z ∧
  waitstates deferred = ["CleanState"] ∧
  next_state (inert_app 1) "BuildMapState" ofs deferred =
    waitsize_decr <$>
      _enter_state (inert_app 1) "CleanState" ofs (Some "BuildMapState")
        (waitsize_incr (set_waitstates [] deferred)).
Proof.
  assert (H1 : eof deferred = false) by run.
  assert (H2 : curstate deferred = Some "BuildMapState") by run.
  assert (H3 : states deferred !! "BuildMapState"
               = Some (slot_at "BuildMapState" deferred)) by run.
  assert (H4 : name (slot_at "BuildMapState" deferred) = "BuildMapState") by run.
  assert (H5 : (- 2 ^ 31 ≤ waitsize deferred < 2 ^ 31)%Z) by decided.
  assert (H6 : waitstates deferred = ["CleanState"]) by run.
  split; [exact H1|]. split; [exact H2|]. split; [exact H3|].
  split; [exact H4|]. split; [exact H5|]. split; [exact H6|].
  exact (proj1 (C2_next_state_destination (inert_app 1) "BuildMapState" ofs
                  deferred _ _ H1 H2 H3 H4 H5) _ _ H6).
Defined.

(** In [Tiny.lone] the state [A] is active, nothing is deferred and [A] has
    no chain successor; [next_state] in the name of [A] leaves [A] and
    leaves the machine without an active state. *)
Lemma C2_counterexample :
  ¬ (in_state "A" Tiny.lone = true → waitstates Tiny.lone = [] →
     nextstate (slot_at "A" Tiny.lone) = "" →
     ∀ st', next_state (inert_app 0) "A" [] Tiny.lone = Some st' →
            curstate st' = Some "A" ∧ log st' = log Tiny.lone).
Proof.
  intros H.
  assert (Hr : next_state (inert_app 0) "A" [] Tiny.lone = Some Tiny.advanced)
    by run.
  assert (Hn : curstate Tiny.advanced ≠ Some "A") by decided.
  apply Hn. apply (H ltac:(run) ltac:(run) ltac:(run) _ Hr).
Qed.

Example lone_next_state :
  next_state (inert_app 0) "A" [] Tiny.lone = Some Tiny.advanced ∧
  curstate Tiny.lone = Some "A" ∧
  curstate Tiny.advanced = None ∧
  log Tiny.advanced = [Center "A"; Cleave "A"] ∧
  ta (slot_at "A" Tiny.lone) = Some (Instance 0 []) ∧
  ta (slot_at "A" Tiny.advanced) = None.
Proof. repeat apply conj; run. Qed.

(** C4 on the machine with the single state [A]: [enter_state<B>]. *)
Lemma C4_witness :
  wf Tiny.lone ∧ states Tiny.lone !! "B" = None ∧
  curstate Tiny.lone = Some "A" ∧
  states Tiny.lone !! "A" = Some (slot_at "A" Tiny.lone) ∧
  enter_state (inert_app 0) "B" [] Tiny.lone =
    Some (set_states (<["A" := after_leave (slot_at "A" Tiny.lone)]>
                        (states Tiny.lone))
            (logged (Cleave "A") (set_curstate None Tiny.lone))).
Proof.
  assert (H1 : wf Tiny.lone) by (apply wf_check_sound; run).
  assert (H2 : states Tiny.lone !! "B" = None) by run.
  assert (H3 : curstate Tiny.lone = Some "A") by run.
  assert (H4 : states Tiny.lone !! "A" = Some (slot_at "A" Tiny.lone)) by run.
  split; [exact H1|]. split; [exact H2|]. split; [exact H3|]. split; [exact H4|].
  exact (proj2 (proj2 (proj2 (proj2 (proj2 (proj2
           (C4_unregistered_identity (inert_app 0) "B" [] Tiny.lone H1 H2))))))
           _ _ H3 H4).
Defined.

(** In [Tiny.lone] the state [A] is active and holds an instance, and [B]
    was never registered; [enter_state<B>] leaves [A], destroys its
    instance, and leaves the machine without an active state. *)
Lemma C4_counterexample :
  ¬ (states Tiny.lone !! "B" = None →
     ∀ st', enter_state (inert_app 0) "B" [] Tiny.lone = Some st' →
            curstate st' = curstate Tiny.lone ∧
            ta (slot_at "A" st') = ta (slot_at "A" Tiny.lone)).
Proof.
  intros H.
  assert (Hr : enter_state (inert_app 0) "B" [] Tiny.lone = Some Tiny.forced)
    by run.
  assert (Hn : curstate Tiny.forced ≠ curstate Tiny.lone) by decided.
  apply Hn. apply (H ltac:(run) _ Hr).
Qed.

Example lone_enter_unregistered :
  enter_state (inert_app 0) "B" [] Tiny.lone = Some Tiny.forced ∧
  curstate Tiny.lone = Some "A" ∧
  curstate Tiny.forced = None ∧
  log Tiny.forced = log Tiny.lone ++ [Cleave "A"] ∧
  ta (slot_at "A" Tiny.lone) = Some (Instance 0 []) ∧
  ta (slot_at "A" Tiny.forced) = None.
Proof. repeat apply conj; run. Qed.

(** C6 on the robot: an event that is routed nowhere, posted while the map
    is built by a class that handles no event. *)
Lemma C6_witness :
  eof build = false ∧ curstate build = Some "BuildMapState" ∧
  states build !! "BuildMapState" = Some (slot_at "BuildMapState" build) ∧
  events build !! "StopEvent" = None ∧
  (- 2 ^ 31 ≤ waitsize build < 2 ^ 31)%Z ∧
  is_Some (ta (slot_at "BuildMapState" build)) ∧
  @on_fsm_event Z (inert_app 1) (name (slot_at "BuildMapState" build)) = None ∧
  post_event (inert_app 1) "StopEvent" 4%Z ofs build =
    Some (logged (Conevt "BuildMapState")
            (set_states
               (<["BuildMapState" := set_evts ∅ (slot_at "BuildMapState" build)]>
                  (states build)) build)).
Proof.
  assert (H1 : eof build = false) by run.
  assert (H2 : curstate build = Some "BuildMapState") by run.
  assert (H3 : states build !! "BuildMapState"
               = Some (slot_at "BuildMapState" build)) by run.
  assert (H4 : events build !! "StopEvent" = None) by run.
  assert (H5 : (- 2 ^ 31 ≤ waitsize build < 2 ^ 31)%Z) by decided.
  assert (H6 : is_Some (ta (slot_at "BuildMapState" build))) by decided.
  assert (H7 : @on_fsm_event Z (inert_app 1)
                 (name (slot_at "BuildMapState" build)) = None) by reflexivity.
  split; [exact H1|]. split; [exact H2|]. split; [exact H3|].
  split; [exact H4|]. split; [exact H5|]. split; [exact H6|].
  split; [exact H7|].
  exact (proj1 (proj2 (C6_post_to_active_state (inert_app 1) "StopEvent" 4%Z ofs
                         build _ _ H1 H2 H3 (or_intror H4) H5)) H6 H7).
Defined.

(** In [cleaning] the active state is [CleanState], to which [CleanEvent] is
    routed, and the [on_fsm_event] of [CleanState] takes the event and calls
    [next_state]: posting [CleanEvent] ends with [RechargeState] active,
    [CleanState] having been left. *)
Lemma C6_counterexample :
  ¬ (eof cleaning = false → in_state "CleanState" cleaning = true →
     events cleaning !! "CleanEvent" = Some "CleanState" →
     ∀ st', post_event app "CleanEvent" 9%Z ofs cleaning = Some st' →
            curstate st' = curstate cleaning ∧
            log st' = log cleaning ++ [Conevt "CleanState"]).
Proof.
  intros H.
  assert (Hr : post_event app "CleanEvent" 9%Z ofs cleaning = Some cleaned)
    by run.
  assert (Hn : curstate cleaned ≠ curstate cleaning) by decided.
  apply Hn. apply (H ltac:(run) ltac:(run) ltac:(run) _ Hr).
Qed.

Example cleaning_post_clean_event :
  post_event app "CleanEvent" 9%Z ofs cleaning = Some cleaned ∧
  curstate cleaning = Some "CleanState" ∧
  curstate cleaned = Some "RechargeState" ∧
  log cleaned = log cleaning ++
                [Conevt "CleanState"; Cleave "CleanState";
                 Center "RechargeState"].
Proof. repeat apply conj; run. Qed.


End Instances.

(** * The further properties on the example machines *)

Section CoverageInstances.

Open Scope list_scope.

Import Robot.

Ltac run := vm_compute; reflexivity.
Ltac decided := apply (bool_decide_unpack _); vm_compute; exact I.

(** X6 on the first chain of the robot. *)
Lemma X6_witness :
  NoDup ["ReadyState"; "BuildMapState"] ∧
  (∀ T, T ∈ ["ReadyState"; "BuildMapState"] → states (@empty_fsm Z) !! T = None) ∧
  ∃ st', regist_chain_state ["ReadyState"; "BuildMapState"] (@empty_fsm Z)
           = Some st' ∧
         states st' !! "ReadyState"
           = Some (set_nextstate "BuildMapState" (new_state "ReadyState")) ∧
         states st' !! "BuildMapState" = Some (new_state "BuildMapState").
Proof.
  assert (H1 : NoDup ["ReadyState"; "BuildMapState"]) by decided.
  assert (H2 : ∀ T, T ∈ ["ReadyState"; "BuildMapState"] →
                    states (@empty_fsm Z) !! T = None)
    by (intros T _; apply lookup_empty).
  split; [exact H1|]. split; [exact H2|].
  destruct (X6_regist_chain_state_links ["ReadyState"; "BuildMapState"]
              empty_fsm H1 H2) as (st' & Hr & Hl & _).
  exists st'. split; [exact Hr|]. split.
  - exact (Hl 0 "ReadyState" eq_refl).
  - exact (Hl 1 "BuildMapState" eq_refl).
Defined.

(** X7 on the machine with the single state [A]: [regist_chain_state<A, B>]
    after [A] was registered. *)
Lemma X7_witness :
  states Tiny.lone !! "A" = Some (slot_at "A" Tiny.lone) ∧
  states Tiny.lone !! "B" = None ∧
  ∃ st', regist_chain_state ["A"; "B"] Tiny.lone = Some st' ∧
         states st' !! "B" = None.
Proof.
  assert (H1 : states Tiny.lone !! "A" = Some (slot_at "A" Tiny.lone)) by run.
  assert (H2 : states Tiny.lone !! "B" = None) by run.
  split; [exact H1|]. split; [exact H2|].
  destruct (X7_chain_from_registered_state "A" "B" Tiny.lone _ H1 H2)
    as (st' & Hr & _ & Hb & _).
  exists st'. split; [exact Hr|exact Hb].
Defined.

(** X11 on the machine with the single state [A], which is active. *)
Lemma X11_witness :
  wf Tiny.lone ∧ curstate Tiny.lone = Some "A" ∧
  enter_state (inert_app 0) "A" [] Tiny.lone = Some Tiny.lone.
Proof.
  assert (H1 : wf Tiny.lone) by (apply wf_check_sound; run).
  assert (H2 : curstate Tiny.lone = Some "A") by run.
  split; [exact H1|]. split; [exact H2|].
  exact (X11_enter_state_active_noop (inert_app 0) "A" [] Tiny.lone H1 H2).
Defined.

(** X12 on the robot: a [CleanEvent] posted while the map is built, the
    [BuildMapState] having no list. *)
Lemma X12_witness :
  wf mapping ∧ eof mapping = false ∧
  events mapping !! "CleanEvent" = Some "CleanState" ∧
  curstate mapping = Some "BuildMapState" ∧
  states mapping !! "BuildMapState" = Some (slot_at "BuildMapState" mapping) ∧
  name (slot_at "BuildMapState" mapping) ≠ "CleanState" ∧
  verdict_of_code (interrupt "CleanEvent" (slot_at "BuildMapState" mapping))
    = Accept ∧
  ∃ st2, post_event (inert_app 1) "CleanEvent" 7%Z ofs mapping
           = waitsize_decr <$> enter (inert_app 1) "CleanState" st2 ∧
         curstate st2 = Some "CleanState" ∧
         log st2 = log mapping ++ [Cleave "BuildMapState"].
Proof.
  assert (H1 : wf mapping) by (apply wf_check_sound; run).
  assert (H2 : eof mapping = false) by run.
  assert (H3 : events mapping !! "CleanEvent" = Some "CleanState") by run.
  assert (H4 : curstate mapping = Some "BuildMapState") by run.
  assert (H5 : states mapping !! "BuildMapState"
               = Some (slot_at "BuildMapState" mapping)) by run.
  assert (H6 : name (slot_at "BuildMapState" mapping) ≠ "CleanState") by decided.
  assert (H7 : verdict_of_code
                 (interrupt "CleanEvent" (slot_at "BuildMapState" mapping))
               = Accept) by run.
  split; [exact H1|]. split; [exact H2|]. split; [exact H3|].
  split; [exact H4|]. split; [exact H5|]. split; [exact H6|].
  split; [exact H7|].
  destruct (X12_accepted_event_interrupts (inert_app 1) "CleanEvent" 7%Z ofs
              mapping _ _ _ H1 H2 H3 H4 H5 H6 H7)
    as (ts & ts' & st2 & _ & Hp & Hc & Hl & _).
  exists st2. split; [exact Hp|]. split; [exact Hc|exact Hl].
Defined.

(** X13 on the robot before its first state is entered. *)
Lemma X13_witness :
  eof idle = false ∧ curstate idle = None ∧
  events idle !! "StopEvent" = None ∧
  post_event (inert_app 1) "StopEvent" 4%Z ofs idle = Some idle.
Proof.
  assert (H1 : eof idle = false) by run.
  assert (H2 : curstate idle = None) by run.
  assert (H3 : events idle !! "StopEvent" = None) by run.
  split; [exact H1|]. split; [exact H2|]. split; [exact H3|].
  exact (proj1 (X13_post_event_without_active_state (inert_app 1) "StopEvent"
                  4%Z ofs idle H1 H2) H3).
Defined.

(** X14 on the robot before its first state is entered: [enter] of the
    slot of [RechargeState]. *)
Lemma X14_witness :
  states idle !! "RechargeState" = Some (slot_at "RechargeState" idle) ∧
  ta (slot_at "RechargeState" idle) = None ∧
  @ctor_inert Z (inert_app 1) (name (slot_at "RechargeState" idle)) ∧
  evts (slot_at "RechargeState" idle) = ∅ ∧
  enter (inert_app 1) "RechargeState" idle =
    Some (constructed "RechargeState" (slot_at "RechargeState" idle)
            (logged (Center "RechargeState") idle)).
Proof.
  assert (H1 : states idle !! "RechargeState"
               = Some (slot_at "RechargeState" idle)) by run.
  assert (H2 : ta (slot_at "RechargeState" idle) = None) by run.
  assert (H3 : @ctor_inert Z (inert_app 1) (name (slot_at "RechargeState" idle)))
    by (intros args st; reflexivity).
  assert (H4 : evts (slot_at "RechargeState" idle) = ∅) by run.
  split; [exact H1|]. split; [exact H2|]. split; [exact H3|]. split; [exact H4|].
  exact (proj1 (X14_enter_builds_and_delivers (inert_app 1) "RechargeState" idle
                  _ H1 H2 H3) H4).
Defined.

(** X15 on the machine with the single state [A], whose slot holds an
    instance. *)
Lemma X15_witness :
  states Tiny.lone !! "A" = Some (slot_at "A" Tiny.lone) ∧
  ta (slot_at "A" Tiny.lone) = Some (Instance 0 []) ∧
  reuse (slot_at "A" Tiny.lone) = false ∧
  @ctor_inert Z (inert_app 0) (name (slot_at "A" Tiny.lone)) ∧
  ∃ st', enter (inert_app 0) "A" Tiny.lone = Some st' ∧
         log st' = log Tiny.lone ++ [Center "A"; Cleave "A"] ∧
         heap_next st' = S (heap_next Tiny.lone).
Proof.
  assert (H1 : states Tiny.lone !! "A" = Some (slot_at "A" Tiny.lone)) by run.
  assert (H2 : ta (slot_at "A" Tiny.lone) = Some (Instance 0 [])) by run.
  assert (H3 : reuse (slot_at "A" Tiny.lone) = false) by run.
  assert (H4 : @ctor_inert Z (inert_app 0) (name (slot_at "A" Tiny.lone)))
    by (intros args st; reflexivity).
  split; [exact H1|]. split; [exact H2|]. split; [exact H3|]. split; [exact H4|].
  destruct (X15_enter_replaces_instance_drops_payloads (inert_app 0) "A"
              Tiny.lone _ _ H1 H2 H3 H4) as (st' & He & Hl & Hh & _).
  exists st'. split; [exact He|]. split; [exact Hl|exact Hh].
Defined.

(** X16 on the machine whose only state is reused and holds a payload. *)
Lemma X16_witness :
  states Tiny.reused !! "A" = Some (slot_at "A" Tiny.reused) ∧
  reuse (slot_at "A" Tiny.reused) = true ∧
  ta (slot_at "A" Tiny.reused) = Some (Instance 0 []) ∧
  evts (slot_at "A" Tiny.reused) ≠ ∅ ∧
  @on_fsm_event Z (inert_app 0) (name (slot_at "A" Tiny.reused)) = None ∧
  enter (inert_app 0) "A" Tiny.reused =
    Some (set_states
            (<["A" := set_evts ∅ (slot_at "A" Tiny.reused)]> (states Tiny.reused))
            (logged (Conevt "A") (logged (Center "A") Tiny.reused))).
Proof.
  assert (H1 : states Tiny.reused !! "A" = Some (slot_at "A" Tiny.reused)) by run.
  assert (H2 : reuse (slot_at "A" Tiny.reused) = true) by run.
  assert (H3 : ta (slot_at "A" Tiny.reused) = Some (Instance 0 [])) by run.
  assert (H4 : evts (slot_at "A" Tiny.reused) ≠ ∅) by decided.
  assert (H5 : @on_fsm_event Z (inert_app 0) (name (slot_at "A" Tiny.reused))
               = None) by reflexivity.
  split; [exact H1|]. split; [exact H2|]. split; [exact H3|].
  split; [exact H4|]. split; [exact H5|].
  exact (proj2 (proj2 (X16_enter_reused_dispatches (inert_app 0) "A" Tiny.reused
                         _ _ H1 H2 H3)) H4 H5).
Defined.

(** X17 on the robot: a [CleanEvent] deferred by [BuildMapState], which
    then advances, [CleanState] having an event handler. *)
Lemma X17_witness :
  wf build ∧ eof build = false ∧ waitstates build = [] ∧
  events build !! "CleanEvent" = Some "CleanState" ∧
  curstate build = Some "BuildMapState" ∧
  states build !! "BuildMapState" = Some (slot_at "BuildMapState" build) ∧
  name (slot_at "BuildMapState" build) ≠ "CleanState" ∧
  verdict_of_code (interrupt "CleanEvent" (slot_at "BuildMapState" build))
    = Defer ∧
  states build !! "CleanState" = Some (slot_at "CleanState" build) ∧
  ta (slot_at "CleanState" build) = None ∧
  ctor_inert handled (name (slot_at "CleanState" build)) ∧
  on_fsm_event handled (name (slot_at "CleanState" build))
    = Some (fun st => Some st) ∧
  ∃ st2,
    (st1 ← post_event handled "CleanEvent" 7%Z ofs build;
     next_state handled (name (slot_at "BuildMapState" build)) ofs st1)
      = Some (waitsize_decr st2) ∧
    curstate st2 = Some "CleanState" ∧ waitstates st2 = [] ∧
    log st2 = log build ++ [Cleave "BuildMapState"; Center "CleanState";
                            Conevt "CleanState"].
Proof.
  assert (H1 : wf build) by (apply wf_check_sound; run).
  assert (H2 : eof build = false) by run.
  assert (H3 : waitstates build = []) by run.
  assert (H4 : events build !! "CleanEvent" = Some "CleanState") by run.
  assert (H5 : curstate build = Some "BuildMapState") by run.
  assert (H6 : states build !! "BuildMapState"
               = Some (slot_at "BuildMapState" build)) by run.
  assert (H7 : name (slot_at "BuildMapState" build) ≠ "CleanState") by decided.
  assert (H8 : verdict_of_code
                 (interrupt "CleanEvent" (slot_at "BuildMapState" build))
               = Defer) by run.
  assert (H9 : states build !! "CleanState" = Some (slot_at "CleanState" build))
    by run.
  assert (H10 : ta (slot_at "CleanState" build) = None) by run.
  assert (H11 : ctor_inert handled (name (slot_at "CleanState" build)))
    by (intros args st; reflexivity).
  assert (H12 : on_fsm_event handled (name (slot_at "CleanState" build))
                = Some (fun st => Some st)) by run.
  split; [exact H1|]. split; [exact H2|]. split; [exact H3|].
  split; [exact H4|]. split; [exact H5|]. split; [exact H6|].
  split; [exact H7|]. split; [exact H8|]. split; [exact H9|].
  split; [exact H10|]. split; [exact H11|]. split; [exact H12|].
  destruct (X17_deferred_event_delivered_on_step_down handled "CleanEvent" 7%Z
              ofs ofs build _ _ _ _ _ H1 H2 H3 H4 H5 H6 H7 H8 H9 H10 H11 H12)
    as (st2 & ts' & Hr & Hc & Hq & Hl & _).
  exists st2. split; [exact Hr|]. split; [exact Hc|]. split; [exact Hq|exact Hl].
Defined.

(** X18 on the robot with inert classes: the first [enter_state]. *)
Lemma X18_witness :
  @app_safe Z (inert_app 1) ∧ wf idle ∧
  ∃ st', enter_state (inert_app 1) "ReadyState" ofs idle = Some st' ∧
         wf st' ∧ slots_kept idle st'.
Proof.
  assert (H1 : @app_safe Z (inert_app 1)) by apply inert_app_safe.
  assert (H2 : wf idle) by (apply wf_check_sound; run).
  split; [exact H1|]. split; [exact H2|].
  exact (proj1 (X18_coordinator_never_faults (inert_app 1) H1)
           "ReadyState" ofs idle H2).
Defined.

(** X20 on the run of the robot program. *)
Lemma X20_witness :
  wf idle ∧
  Script.run (Script.app_of prog 1 8) ofs [Script.Enter "ReadyState"] idle
    = Some recharging ∧
  wf recharging.
Proof.
  assert (H1 : wf idle) by (apply wf_check_sound; run).
  assert (H2 : Script.run (Script.app_of prog 1 8) ofs
                 [Script.Enter "ReadyState"] idle = Some recharging) by run.
  split; [exact H1|]. split; [exact H2|].
  exact (X20_wf_is_invariant prog 1 8 ofs [Script.Enter "ReadyState"] idle
           recharging H1 H2).
Defined.

(** X21 on the robot with inert classes: an accepted [CleanEvent]. *)
Lemma X21_witness :
  @app_keeps_config Z (inert_app 1) ∧
  post_event (inert_app 1) "CleanEvent" 7%Z ofs mapping =
    Some (default mapping (post_event (inert_app 1) "CleanEvent" 7%Z ofs mapping)) ∧
  same_config mapping
    (default mapping (post_event (inert_app 1) "CleanEvent" 7%Z ofs mapping)).
Proof.
  assert (H1 : @app_keeps_config Z (inert_app 1)) by apply inert_app_keeps_config.
  assert (H2 : post_event (inert_app 1) "CleanEvent" 7%Z ofs mapping =
               Some (default mapping
                       (post_event (inert_app 1) "CleanEvent" 7%Z ofs mapping)))
    by run.
  split; [exact H1|]. split; [exact H2|].
  exact (proj2 (proj2 (X21_transitions_keep_configuration (inert_app 1) H1))
           "CleanEvent" 7%Z ofs mapping _ H2).
Defined.

(** X22 on the robot with inert classes: the first [enter_state]. *)
Lemma X22_witness :
  wf idle ∧
  states idle !! "ReadyState" = Some (slot_at "ReadyState" idle) ∧
  ta (slot_at "ReadyState" idle) = None ∧
  evts (slot_at "ReadyState" idle) = ∅ ∧
  @ctor_inert Z (inert_app 1) "ReadyState" ∧
  length ofs = @arity Z (inert_app 1) ∧
  curstate idle = None ∧
  ∃ st', enter_state (inert_app 1) "ReadyState" ofs idle = Some st' ∧
         in_state "ReadyState" st' = true ∧
         get_state "ReadyState" st' = Some (Instance (heap_next idle) ofs) ∧
         log st' = log idle ++ [Center "ReadyState"].
Proof.
  assert (H1 : wf idle) by (apply wf_check_sound; run).
  assert (H2 : states idle !! "ReadyState" = Some (slot_at "ReadyState" idle))
    by run.
  assert (H3 : ta (slot_at "ReadyState" idle) = None) by run.
  assert (H4 : evts (slot_at "ReadyState" idle) = ∅) by run.
  assert (H5 : @ctor_inert Z (inert_app 1) "ReadyState")
    by (intros args st; reflexivity).
  assert (H6 : length ofs = @arity Z (inert_app 1)) by reflexivity.
  assert (H7 : curstate idle = None) by run.
  split; [exact H1|]. split; [exact H2|]. split; [exact H3|].
  split; [exact H4|]. split; [exact H5|]. split; [exact H6|]. split; [exact H7|].
  exact (proj1 (X22_enter_state_builds_from_params (inert_app 1) "ReadyState" ofs
                  idle _ H1 H2 H3 H4 H5 H6) H7).
Defined.

(** X4 on the robot: the blacklist that [main] registers. *)
Lemma X4_witness :
  regist_black_event "RechargeState" ["CleanEvent"] (@empty_fsm Z) =
    Some (default empty_fsm
            (regist_black_event "RechargeState" ["CleanEvent"] empty_fsm)) ∧
  states (default empty_fsm
            (regist_black_event "RechargeState" ["CleanEvent"] (@empty_fsm Z)))
    !! "RechargeState"
    = Some (add_black_event ["CleanEvent"] (new_state "RechargeState")) ∧
  "CleanEvent" ∈ ["CleanEvent"] ∧
  verdict_of_code
    (interrupt "CleanEvent"
       (add_black_event ["CleanEvent"] (@new_state Z "RechargeState")))
    = Reject.
Proof.
  assert (H1 : regist_black_event "RechargeState" ["CleanEvent"] (@empty_fsm Z) =
               Some (default empty_fsm
                       (regist_black_event "RechargeState" ["CleanEvent"]
                          empty_fsm))) by run.
  assert (H2 : states (default empty_fsm
                         (regist_black_event "RechargeState" ["CleanEvent"]
                            (@empty_fsm Z))) !! "RechargeState"
               = Some (add_black_event ["CleanEvent"] (new_state "RechargeState")))
    by run.
  assert (H3 : "CleanEvent" ∈ ["CleanEvent"]) by (apply elem_of_cons; by left).
  split; [exact H1|]. split; [exact H2|]. split; [exact H3|].
  exact (proj1 (X4_registered_lists_decide "RechargeState" ["CleanEvent"]
                  empty_fsm) _ _ "CleanEvent" H1 H2 H3).
Defined.

End CoverageInstances.
